(** * Snuba: query translation, storage selection and replacement consistency

    A shallow embedding of the discover entity's expression mappers
    ([snuba/datasets/entities/discover.py]), the replacer worker and its
    Redis-backed consistency flags ([snuba/replacer.py]), the sampling rate
    processor ([snuba/query/processors/sampling_rate.py]) and the outcomes
    storage selector ([snuba/datasets/outcomes.py]), with the properties the
    specification states about them. *)

From Stdlib Require Import ZArith QArith List Bool Lia Lqa.
From stdpp Require Import base option list strings pretty gmap sorting.
Import ListNotations.

Set Warnings "-register-all".

Local Open Scope list_scope.
Local Open Scope string_scope.
Local Open Scope Z_scope.

(** ** Exceptions

    Python exceptions are modelled by an error monad: a computation either
    returns a value or raises, and a raise skips the rest of the
    computation, as an uncaught exception does. *)

(** Decoded JSON. A number without fraction or exponent decodes to an
    integer, any other number to a float, kept here by its value. *)
Inductive Json : Type :=
| JNull
| JBool (b : bool)
| JInt (n : Z)
| JFloat (x : Q)
| JStr (s : string)
| JArr (items : list Json)
| JObj (members : list (string * Json)).

Inductive Exception : Type :=
| AssertionError
| AttributeError
| RecursionError
| IndexError
| TypeError
| ValueError
| InvalidMessageType (type_ : Json)
| InvalidMessageVersion (message : list Json).

Inductive Result (A : Type) : Type :=
| Ok (value : A)
| Raise (exc : Exception).

Arguments Ok {A} value.
Arguments Raise {A} exc.

#[global] Instance Result_ret : MRet Result := fun A a => Ok a.

#[global] Instance Result_bind : MBind Result := fun A B k c =>
  match c with
  | Ok a => k a
  | Raise e => Raise e
  end.

(** [assert cond] *)
Definition assert (cond : bool) : Result unit :=
  if cond then Ok tt else Raise AssertionError.

(** [tuple(f(p) for p in ps)]: left to right, the first exception wins. *)
Fixpoint for_each {A B : Type} (f : A -> Result B) (ps : list A) : Result (list B) :=
  match ps with
  | [] => Ok []
  | p :: rest =>
      p' ← f p;
      rest' ← for_each f rest;
      Ok (p' :: rest')
  end.

(** ** Expressions ([snuba.query.expressions]) *)

(** The values a [Literal] carries; [VNone] is Python's [None], SQL NULL. *)
Inductive ScalarValue : Type :=
| VNone
| VBool (b : bool)
| VInt (n : Z)
| VStr (s : string).

(** Expression nodes are Python dataclasses; the field types are annotations
    only, so an inner function or a subscripted column is any expression. *)
Inductive Expression : Type :=
| Literal (alias : option string) (value : ScalarValue)
| Column (alias : option string) (table_name : option string) (column_name : string)
| SubscriptableReference (alias : option string) (column : Expression) (key : Expression)
| FunctionCall (alias : option string) (function_name : string)
    (parameters : list Expression)
| CurriedFunctionCall (alias : option string) (internal_function : Expression)
    (parameters : list Expression).

Definition alias (e : Expression) : option string :=
  match e with
  | Literal a _ | Column a _ _ | SubscriptableReference a _ _
  | FunctionCall a _ _ | CurriedFunctionCall a _ _ => a
  end.

(** Attribute access; a node without the attribute raises. *)
Definition column_name (e : Expression) : Result string :=
  match e with
  | Column _ _ c => Ok c
  | _ => Raise AttributeError
  end.

Definition table_name (e : Expression) : Result (option string) :=
  match e with
  | Column _ t _ => Ok t
  | _ => Raise AttributeError
  end.

Definition column (e : Expression) : Result Expression :=
  match e with
  | SubscriptableReference _ c _ => Ok c
  | _ => Raise AttributeError
  end.

Definition parameters (e : Expression) : Result (list Expression) :=
  match e with
  | FunctionCall _ _ ps | CurriedFunctionCall _ _ ps => Ok ps
  | _ => Raise AttributeError
  end.

Definition internal_function (e : Expression) : Result Expression :=
  match e with
  | CurriedFunctionCall _ f _ => Ok f
  | _ => Raise AttributeError
  end.

Definition function_name (e : Expression) : Result string :=
  match e with
  | FunctionCall _ n _ => Ok n
  | _ => Raise AttributeError
  end.

(** [isinstance(e, Literal)], [isinstance(e, FunctionCall)], ... *)
Definition is_Literal (e : Expression) : bool :=
  match e with Literal _ _ => true | _ => false end.

Definition is_Column (e : Expression) : bool :=
  match e with Column _ _ _ => true | _ => false end.

Definition is_FunctionCall (e : Expression) : bool :=
  match e with FunctionCall _ _ _ => true | _ => false end.

(** The expression visitor: [e.accept(translator)] hands [e] to the
    translator, which returns the translated node or raises. *)
Definition Translator : Type := Expression -> Result Expression.

Definition accept (e : Expression) (visitor : Translator) : Result Expression :=
  visitor e.

(** Python's [a or b] on an optional string: [None] and the empty string
    are both falsy. *)
Definition or_else (a : option string) (b : string) : string :=
  match a with
  | Some s => if String.eqb s "" then b else s
  | None => b
  end.

(** ** Column sets ([snuba.clickhouse.columns]) *)

Inductive TypeModifier : Type :=
| Nullable.

Inductive ColumnType : Type :=
| UUID (modifiers : list TypeModifier)
| UInt (size : Z) (modifiers : list TypeModifier)
| Float (size : Z) (modifiers : list TypeModifier)
| String_ (modifiers : list TypeModifier)
| FixedString (length : Z) (modifiers : list TypeModifier)
| DateTime (modifiers : list TypeModifier)
| Array (inner : ColumnType) (modifiers : list TypeModifier)
| Nested (nested_columns : list (string * ColumnType)).

Definition ColumnSet : Type := list (string * ColumnType).

(** Modelled from the spec: the [ColumnSet] class is not part of the sources
    at hand. A physical schema is "a set of named, typed columns"; a nested
    column contributes its sub-columns under the names [nested.sub]. *)
Definition flattened (columns : ColumnSet) : list string :=
  flat_map (fun '(name, type) =>
    match type with
    | Nested nested_columns => map (fun sub => name ++ "." ++ fst sub) nested_columns
    | _ => [name]
    end) columns.

(** Modelled from the spec: [name in columns], membership by column name. *)
Definition contains (columns : ColumnSet) (name : string) : bool :=
  existsb (String.eqb name) (flattened columns).

(** Modelled from the spec: [snuba.util.qualified_column], the
    "table-qualified name" of a column: [table.column], or the bare column
    name when there is no table. *)
Definition qualified_column (column_name table : string) : string :=
  if String.eqb table "" then column_name else table ++ "." ++ column_name.

(** ** Pattern matchers ([snuba.query.matchers]) *)

(** Modelled from the spec: the matchers module is not part of the sources
    at hand. Matchers are "composed from primitives: Literal(predicate),
    String(expected), FunctionCall(nameMatcher, paramMatchers),
    Or(matchers...)"; [match] returns a result or no match and never raises
    on a structurally different node. A [Literal] matcher built without a
    predicate accepts every literal; a [FunctionCall] matcher with parameter
    matchers accepts a call with exactly as many parameters, each matching
    in position. *)
Inductive StringPattern : Type :=
| StringMatch (expected : string)
| Or (matchers : list StringPattern).

Inductive Pattern : Type :=
| LiteralMatch
| FunctionCallMatch (name_matcher : StringPattern)
    (param_matchers : option (list Pattern)).

Inductive MatchResult : Type :=
| MatchResult_.

Fixpoint match_string (p : StringPattern) (s : string) : option MatchResult :=
  match p with
  | StringMatch expected => if String.eqb expected s then Some MatchResult_ else None
  | Or matchers =>
      (fix first (ms : list StringPattern) : option MatchResult :=
         match ms with
         | [] => None
         | m :: rest =>
             match match_string m s with
             | Some r => Some r
             | None => first rest
             end
         end) matchers
  end.

Fixpoint match_ (p : Pattern) (node : Expression) : option MatchResult :=
  match p with
  | LiteralMatch => if is_Literal node then Some MatchResult_ else None
  | FunctionCallMatch name_matcher param_matchers =>
      match node with
      | FunctionCall _ name params =>
          match match_string name_matcher name with
          | None => None
          | Some r =>
              match param_matchers with
              | None => Some r
              | Some matchers =>
                  (fix zip (ms : list Pattern) (ps : list Expression)
                     : option MatchResult :=
                     match ms, ps with
                     | [], [] => Some r
                     | m :: ms', p' :: ps' =>
                         match match_ m p' with
                         | None => None
                         | Some _ => zip ms' ps'
                         end
                     | _, _ => None
                     end) matchers params
              end
          end
      | _ => None
      end
  end.

(** Modelled from the spec: [snuba.query.dsl.identity], the "identity(NULL)
    wrapper carrying the call's alias". *)
Definition identity (expression : Expression) (alias : option string) : Expression :=
  FunctionCall alias "identity" [expression].

(** ** Mappers ([snuba.clickhouse.translators.snuba.allowed])

    The four mapper interfaces share one operation,
    [attempt_map(expression, children_translator)], which returns the mapped
    node, or [None] to leave the node to the next rule. *)

Class ExpressionMapper (M : Type) : Type :=
  attempt_map : M -> Expression -> Translator -> Result (option Expression).

(** A rule of a chain: a mapper instance, seen through its [attempt_map]. *)
Definition Rule : Type := Expression -> Translator -> Result (option Expression).

Definition rule {M : Type} `{ExpressionMapper M} (self : M) : Rule :=
  attempt_map self.

(** *** [DefaultNoneColumnMapper] *)

Record DefaultNoneColumnMapper : Type :=
  { columns : ColumnSet }.

#[global] Instance DefaultNoneColumnMapper_attempt_map
  : ExpressionMapper DefaultNoneColumnMapper :=
  fun self expression children_translator =>
    name ← column_name expression;
    if contains (columns self) name then
      table ← table_name expression;
      Ok (Some (Literal
                  (Some (or_else (alias expression)
                           (qualified_column name (default "" table))))
                  VNone))
    else Ok None.

(** *** [DefaultNoneFunctionMapper] *)

Record DefaultNoneFunctionMapper : Type :=
  { function_names : list string }.

Definition DefaultNoneFunctionMapper_function_match
  (self : DefaultNoneFunctionMapper) : Pattern :=
  FunctionCallMatch (Or (map StringMatch (function_names self))) None.

#[global] Instance DefaultNoneFunctionMapper_attempt_map
  : ExpressionMapper DefaultNoneFunctionMapper :=
  fun self expression children_translator =>
    match match_ (DefaultNoneFunctionMapper_function_match self) expression with
    | Some _ => Ok (Some (identity (Literal None VNone) (alias expression)))
    | None => Ok None
    end.

(** *** [DefaultIfNullFunctionMapper] and [DefaultIfNullCurriedFunctionMapper] *)

Definition function_match : Pattern :=
  FunctionCallMatch (StringMatch "ifNull") (Some [LiteralMatch; LiteralMatch]).

(** The loop over the translated parameters, which both mappers share:
    [all_null] starts true and the loop breaks at the first parameter that
    neither matches [function_match] nor is a [None] literal. *)
Fixpoint all_null (parameters : list Expression) : bool :=
  match parameters with
  | [] => true
  | param :: rest =>
      match match_ function_match param with
      | None =>
          match param with
          | Literal _ value =>
              match value with
              | VNone => all_null rest
              | _ => false
              end
          | _ => false
          end
      | Some _ => all_null rest
      end
  end.

Inductive DefaultIfNullFunctionMapper : Type :=
| DefaultIfNullFunctionMapper_.

#[global] Instance DefaultIfNullFunctionMapper_attempt_map
  : ExpressionMapper DefaultIfNullFunctionMapper :=
  fun self expression children_translator =>
    ps ← parameters expression;
    params ← for_each (fun p => accept p children_translator) ps;
    if all_null params && (0 <? Z.of_nat (length params)) then
      Ok (Some (FunctionCall (alias expression) "ifNull"
                  [Literal None VNone; Literal None VNone]))
    else Ok None.

Inductive DefaultIfNullCurriedFunctionMapper : Type :=
| DefaultIfNullCurriedFunctionMapper_.

#[global] Instance DefaultIfNullCurriedFunctionMapper_attempt_map
  : ExpressionMapper DefaultIfNullCurriedFunctionMapper :=
  fun self expression children_translator =>
    f ← internal_function expression;
    inner ← accept f children_translator;
    assert (is_FunctionCall inner);;
    ps ← parameters expression;
    params ← for_each (fun p => accept p children_translator) ps;
    if all_null params && (0 <? Z.of_nat (length params)) then
      name ← function_name inner;
      inner_parameters ← parameters inner;
      Ok (Some (CurriedFunctionCall (alias expression)
                  (FunctionCall None (name ++ "OrNull") inner_parameters)
                  (map (fun p => Literal None VNone) params)))
    else Ok None.

(** *** [DefaultNoneSubscriptMapper] *)

Record DefaultNoneSubscriptMapper : Type :=
  { subscript_names : list string }.

#[global] Instance DefaultNoneSubscriptMapper_attempt_map
  : ExpressionMapper DefaultNoneSubscriptMapper :=
  fun self expression children_translator =>
    c ← column expression;
    name ← column_name c;
    if existsb (String.eqb name) (subscript_names self) then
      Ok (Some (Literal (alias expression) VNone))
    else Ok None.

(** ** Mapper chains ([snuba.clickhouse.translators.snuba.mapping]) *)

Module TranslationMappers.

(** Modelled from the spec: the [TranslationMappers] class is not part of
    the sources at hand. A chain is "four ordered sequences (by node kind)
    of mapper rules"; an omitted sequence is empty. *)
Record t : Type :=
  { columns : list Rule;
    functions : list Rule;
    curried_functions : list Rule;
    subscriptables : list Rule }.

Definition empty : t :=
  {| columns := []; functions := []; curried_functions := [];
     subscriptables := [] |}.

(** Modelled from the spec: "concatenating two chains yields a chain whose
    per-kind sequences are list-concatenations (order = [...a, ...b])". *)
Definition concat (self other : t) : t :=
  {| columns := columns self ++ columns other;
     functions := functions self ++ functions other;
     curried_functions := curried_functions self ++ curried_functions other;
     subscriptables := subscriptables self ++ subscriptables other |}.

End TranslationMappers.

(** ** The strict translator *)

(** Modelled from the spec: the translator gives "every mapper in the
    node's-kind sequence a chance (in order)"; "the first rule that produces
    a non-absent result for a node wins; later rules are not consulted". An
    exception raised by a rule propagates. *)
Fixpoint apply_rules (rules : list Rule) (exp : Expression)
  (children_translator : Translator) (otherwise : Result Expression)
  : Result Expression :=
  match rules with
  | [] => otherwise
  | r :: rest =>
      mapped ← r exp children_translator;
      match mapped with
      | Some exp' => Ok exp'
      | None => apply_rules rest exp children_translator otherwise
      end
  end.

(** Modelled from the spec: the structural (identity) translation, which
    "reconstructs the node from its already-translated children"; "a curried
    call whose inner expression doesn't translate to a function" is fatal. *)
Definition translate_structurally (exp : Expression)
  (children_translator : Translator) : Result Expression :=
  match exp with
  | Literal _ _ => Ok exp
  | Column _ _ _ => Ok exp
  | SubscriptableReference a c k =>
      c' ← accept c children_translator;
      k' ← accept k children_translator;
      Ok (SubscriptableReference a c' k')
  | FunctionCall a name ps =>
      ps' ← for_each (fun p => accept p children_translator) ps;
      Ok (FunctionCall a name ps')
  | CurriedFunctionCall a f ps =>
      f' ← accept f children_translator;
      assert (is_FunctionCall f');;
      ps' ← for_each (fun p => accept p children_translator) ps;
      Ok (CurriedFunctionCall a f' ps')
  end.

(** The rules that apply to a node, by its kind; literals have none. *)
Definition rules_for (mappers : TranslationMappers.t) (exp : Expression) : list Rule :=
  match exp with
  | Literal _ _ => []
  | Column _ _ _ => TranslationMappers.columns mappers
  | SubscriptableReference _ _ _ => TranslationMappers.subscriptables mappers
  | FunctionCall _ _ _ => TranslationMappers.functions mappers
  | CurriedFunctionCall _ _ _ => TranslationMappers.curried_functions mappers
  end.

(** Modelled from the spec: the Strict Translator, a visitor that is its own
    children translator. The recursion of the visitor through the mappers is
    bounded by [fuel], the depth of calls left; running out of it is
    Python's [RecursionError]. *)
Fixpoint translate_expression (fuel : nat) (mappers : TranslationMappers.t)
  (exp : Expression) : Result Expression :=
  match fuel with
  | O => Raise RecursionError
  | S fuel' =>
      let children_translator := translate_expression fuel' mappers in
      apply_rules (rules_for mappers exp) exp children_translator
        (translate_structurally exp children_translator)
  end.

(** *** Mappers of [snuba.clickhouse.translators.snuba.mappers] *)

Record ColumnToLiteral : Type :=
  { from_table_name : option string;
    from_col_name : string;
    to_literal_value : ScalarValue }.

(** Modelled from the spec: [ColumnToLiteral] is not part of the sources at
    hand; it rewrites a reference to the named column into a literal of the
    configured value, the alias carried over as the Column-to-NULL mapper
    does. An absent [from_table_name] accepts every table. *)
#[global] Instance ColumnToLiteral_attempt_map : ExpressionMapper ColumnToLiteral :=
  fun self expression children_translator =>
    name ← column_name expression;
    table ← table_name expression;
    if String.eqb (from_col_name self) name
       && match from_table_name self with
          | None => true
          | Some from => bool_decide (table = Some from)
          end
    then Ok (Some (Literal
                     (Some (or_else (alias expression)
                              (qualified_column name (default "" table))))
                     (to_literal_value self)))
    else Ok None.

(** ** The discover chains *)

Definition EVENTS_COLUMNS : ColumnSet :=
  [ ("group_id", UInt 64 [Nullable]);
    ("primary_hash", FixedString 32 [Nullable]);
    ("level", String_ [Nullable]);
    ("logger", String_ [Nullable]);
    ("server_name", String_ [Nullable]);
    ("site", String_ [Nullable]);
    ("url", String_ [Nullable]);
    ("location", String_ [Nullable]);
    ("culprit", String_ [Nullable]);
    ("received", DateTime [Nullable]);
    ("sdk_integrations", Array (String_ []) [Nullable]);
    ("version", String_ [Nullable]);
    ("exception_stacks",
      Nested [ ("type", String_ [Nullable]);
               ("value", String_ [Nullable]);
               ("mechanism_type", String_ [Nullable]);
               ("mechanism_handled", UInt 8 [Nullable]) ]);
    ("exception_frames",
      Nested [ ("abs_path", String_ [Nullable]);
               ("filename", String_ [Nullable]);
               ("package", String_ [Nullable]);
               ("module", String_ [Nullable]);
               ("function", String_ [Nullable]);
               ("in_app", UInt 8 [Nullable]);
               ("colno", UInt 32 [Nullable]);
               ("lineno", UInt 32 [Nullable]);
               ("stack_level", UInt 16 []) ]);
    ("modules", Nested [ ("name", String_ []); ("version", String_ []) ]) ].

Definition TRANSACTIONS_COLUMNS : ColumnSet :=
  [ ("trace_id", UUID [Nullable]);
    ("span_id", UInt 64 [Nullable]);
    ("transaction_hash", UInt 64 [Nullable]);
    ("transaction_op", String_ [Nullable]);
    ("transaction_status", UInt 8 [Nullable]);
    ("duration", UInt 32 [Nullable]);
    ("measurements", Nested [ ("key", String_ []); ("value", Float 64 []) ]) ].

Definition events_translation_mappers : TranslationMappers.t :=
  {| TranslationMappers.columns :=
       [ rule {| columns := TRANSACTIONS_COLUMNS |} ];
     TranslationMappers.functions :=
       [ rule {| function_names := ["apdex"; "failure_rate"] |} ];
     TranslationMappers.curried_functions := [];
     TranslationMappers.subscriptables :=
       [ rule {| subscript_names := ["measurements"] |} ] |}.

Definition transaction_translation_mappers : TranslationMappers.t :=
  {| TranslationMappers.columns :=
       [ rule {| from_table_name := None; from_col_name := "group_id";
                 to_literal_value := VInt 0 |};
         rule {| columns := EVENTS_COLUMNS |} ];
     TranslationMappers.functions :=
       [ rule {| function_names := ["isHandled"; "notHandled"] |} ];
     TranslationMappers.curried_functions := [];
     TranslationMappers.subscriptables := [] |}.

Definition null_function_translation_mappers : TranslationMappers.t :=
  {| TranslationMappers.columns := [];
     TranslationMappers.functions := [ rule DefaultIfNullFunctionMapper_ ];
     TranslationMappers.curried_functions :=
       [ rule DefaultIfNullCurriedFunctionMapper_ ];
     TranslationMappers.subscriptables := [] |}.

(** [DiscoverTransactionsEntity]'s [custom_mappers]. *)
Definition DiscoverTransactionsEntity_custom_mappers : TranslationMappers.t :=
  TranslationMappers.concat transaction_translation_mappers
    null_function_translation_mappers.

(** [DiscoverEventsEntity]'s [custom_mappers]. *)
Definition DiscoverEventsEntity_custom_mappers : TranslationMappers.t :=
  TranslationMappers.concat events_translation_mappers
    null_function_translation_mappers.

(** [DiscoverEntity]'s selector mappers. [ColumnToMapping] and
    [SubscriptableMapper] are defined outside the sources at hand; the chain
    is given for any implementation of them. *)
Section DiscoverEntity.

Variable ColumnToMapping :
  option string -> string -> option string -> string -> string -> Rule.
Variable SubscriptableMapper :
  option string -> string -> option string -> string -> Rule.

Definition DiscoverEntity_mappers : TranslationMappers.t :=
  TranslationMappers.concat
    (TranslationMappers.concat
       (TranslationMappers.concat events_translation_mappers
          transaction_translation_mappers)
       null_function_translation_mappers)
    {| TranslationMappers.columns :=
         [ ColumnToMapping None "release" None "tags" "sentry:release";
           ColumnToMapping None "dist" None "tags" "sentry:dist";
           ColumnToMapping None "user" None "tags" "sentry:user" ];
       TranslationMappers.functions := [];
       TranslationMappers.curried_functions := [];
       TranslationMappers.subscriptables :=
         [ SubscriptableMapper None "tags" None "tags";
           SubscriptableMapper None "contexts" None "contexts" ] |}.

End DiscoverEntity.

(** ** Well-formed expression trees and the mapper contract *)

Definition is_CurriedFunctionCall (e : Expression) : bool :=
  match e with CurriedFunctionCall _ _ _ => true | _ => false end.

Definition is_SubscriptableReference (e : Expression) : bool :=
  match e with SubscriptableReference _ _ _ => true | _ => false end.

Definition children (e : Expression) : list Expression :=
  match e with
  | Literal _ _ | Column _ _ _ => []
  | SubscriptableReference _ c k => [c; k]
  | FunctionCall _ _ ps => ps
  | CurriedFunctionCall _ f ps => f :: ps
  end.

Fixpoint height (e : Expression) : nat :=
  match e with
  | Literal _ _ | Column _ _ _ => O
  | SubscriptableReference _ c k => S (Nat.max (height c) (height k))
  | FunctionCall _ _ ps => S (foldr Nat.max O (map height ps))
  | CurriedFunctionCall _ f ps =>
      S (Nat.max (height f) (foldr Nat.max O (map height ps)))
  end.

(** The data model's typing of the nodes: the inner function of a curried
    call is a function call, the subscripted column is a column. *)
Fixpoint well_formed (e : Expression) : bool :=
  match e with
  | Literal _ _ | Column _ _ _ => true
  | SubscriptableReference _ c k => is_Column c && well_formed k
  | FunctionCall _ _ ps => forallb well_formed ps
  | CurriedFunctionCall _ f ps =>
      is_FunctionCall f && well_formed f && forallb well_formed ps
  end.

(** The proper sub-expressions of a node. *)
Inductive subexpression : Expression -> Expression -> Prop :=
| subexpression_child (s e : Expression) :
    In s (children e) -> subexpression s e
| subexpression_deeper (s c e : Expression) :
    subexpression s c -> In c (children e) -> subexpression s e.

(** A children translator that succeeds below [e] and maps calls to calls. *)
Definition translates_below (t : Translator) (e : Expression) : Prop :=
  forall s : Expression, subexpression s e ->
    exists s' : Expression,
      t s = Ok s' /\ (is_FunctionCall s = true -> is_FunctionCall s' = true).

(** The contract of a mapper for the nodes of one [kind]: it asks the
    children translator about sub-expressions of its node only; it declines
    instead of raising; and a function mapper returns a function call. *)
Record honours_contract (kind : Expression -> bool) (same_kind : bool)
  (r : Rule) : Prop :=
  { contract_local :
      forall (e : Expression) (t1 t2 : Translator),
        (forall s : Expression, subexpression s e -> t1 s = t2 s) ->
        r e t1 = r e t2;
    contract_decides :
      forall (e : Expression) (t : Translator),
        kind e = true -> well_formed e = true -> translates_below t e ->
        exists o : option Expression, r e t = Ok o;
    contract_same_kind :
      forall (e e' : Expression) (t : Translator),
        same_kind = true -> kind e = true -> r e t = Ok (Some e') ->
        kind e' = true }.

Record chain_honours_contract (mappers : TranslationMappers.t) : Prop :=
  { contract_columns :
      Forall (honours_contract is_Column false)
        (TranslationMappers.columns mappers);
    contract_functions :
      Forall (honours_contract is_FunctionCall true)
        (TranslationMappers.functions mappers);
    contract_curried_functions :
      Forall (honours_contract is_CurriedFunctionCall false)
        (TranslationMappers.curried_functions mappers);
    contract_subscriptables :
      Forall (honours_contract is_SubscriptableReference false)
        (TranslationMappers.subscriptables mappers) }.

(** ** Storage selection for discover *)

Inductive StorageKey : Type :=
| EVENTS
| TRANSACTIONS.

(** The table a storage reads from under the test settings. *)
Definition format_from (storage : StorageKey) : string :=
  match storage with
  | EVENTS => "test_sentry_local"
  | TRANSACTIONS => "test_transactions_local"
  end.

Inductive ConditionValue : Type :=
| CStr (s : string)
| CInt (n : Z).

(** A query body as the tests build it: conditions [[lhs, op, rhs]],
    selected column names, and aggregations [[function, column, alias]]. *)
Record QueryBody : Type :=
  { conditions : list (string * string * ConditionValue);
    selected_columns : list string;
    aggregations : list (string * string * string) }.

Definition is_type_condition (op : string)
  (condition : string * string * ConditionValue) : bool :=
  match condition with
  | (lhs, op', CStr rhs) =>
      String.eqb lhs "type" && String.eqb op' op && String.eqb rhs "transaction"
  | _ => false
  end.

(** The column and function names a query refers to, "across conditions,
    selected columns, and aggregations". *)
Definition referenced_names (query : QueryBody) : list string :=
  (map (fun c => fst (fst c)) (conditions query)
   ++ selected_columns query
   ++ flat_map (fun a => [fst (fst a); snd (fst a)]) (aggregations query))%list.

(** Modelled from the spec: the discover storage selector is not part of the
    sources at hand. A condition [type = "transaction"] selects the
    transactions storage and [type != "transaction"] the default one;
    otherwise, "if any referenced name is recognized as belonging
    exclusively to one physical schema, select that schema; if no such
    discriminating name is found, or names from both schemas are present,
    fall back to a configured default schema", the events storage. *)
Definition select_storage (query : QueryBody) : StorageKey :=
  if existsb (is_type_condition "=") (conditions query) then TRANSACTIONS
  else if existsb (is_type_condition "!=") (conditions query) then EVENTS
  else
    let names := referenced_names query in
    let events_only := existsb (contains EVENTS_COLUMNS) names in
    let transactions_only := existsb (contains TRANSACTIONS_COLUMNS) names in
    if transactions_only && negb events_only then TRANSACTIONS else EVENTS.

(** ** The outcomes storage selector ([snuba/datasets/outcomes.py]) *)

Module OutcomesQueryStorageSelector.
Section Selector.

Context {TableStorage Query RequestSettings : Type}.

Record t : Type :=
{ raw_table : TableStorage;
  materialized_view : TableStorage }.

Definition select_storage (self : t) (query : Query)
(request_settings : RequestSettings) : TableStorage :=
materialized_view self.

End Selector.
End OutcomesQueryStorageSelector.

(** The two storages [OutcomesDataset] builds, by the tables of their read
    and write schemas. *)
Record TableStorage : Type :=
  { read_schema : string * string;
    write_schema : option (string * string) }.

Definition WRITE_LOCAL_TABLE_NAME : string := "outcomes_raw_local".
Definition WRITE_DIST_TABLE_NAME : string := "outcomes_raw_dist".
Definition READ_LOCAL_TABLE_NAME : string := "outcomes_hourly_local".
Definition READ_DIST_TABLE_NAME : string := "outcomes_hourly_dist".

Definition writable_storage : TableStorage :=
  {| read_schema := (WRITE_LOCAL_TABLE_NAME, WRITE_DIST_TABLE_NAME);
     write_schema := Some (WRITE_LOCAL_TABLE_NAME, WRITE_DIST_TABLE_NAME) |}.

Definition materialized_storage : TableStorage :=
  {| read_schema := (READ_LOCAL_TABLE_NAME, READ_DIST_TABLE_NAME);
     write_schema := None |}.

Definition storage_selector : OutcomesQueryStorageSelector.t :=
  {| OutcomesQueryStorageSelector.raw_table := writable_storage;
     OutcomesQueryStorageSelector.materialized_view := materialized_storage |}.

(** ** The sampling rate processor
    ([snuba/query/processors/sampling_rate.py]) *)

Module SamplingRateProcessor.
Section Processor.

(** The sampling modes are declared outside the sources at hand; the
  processor only compares the mode with [AUTO_DEPRECATED]. *)
Context {SamplingMode : Type} `{EqDecision SamplingMode}.
Variable AUTO_DEPRECATED : SamplingMode.

(** [settings.TURBO_SAMPLE_RATE]. *)
Variable TURBO_SAMPLE_RATE : Q.

Record DataSource : Type :=
{ supports_sample : bool }.

(** A query bound to a data source, with its sample setting. *)
Record Query : Type :=
{ get_data_source : DataSource;
  get_sample : option Q }.

Definition set_sample (query : Query) (sample : option Q) : Query :=
{| get_data_source := get_data_source query; get_sample := sample |}.

Record RequestSettings : Type :=
{ get_sampling_config_mode : SamplingMode;
  get_turbo : bool }.

(** Truth value of a sample setting: [None] and a rate of zero are falsy. *)
Definition truthy (sample : option Q) : bool :=
match sample with
| None => false
| Some rate => negb (Qeq_bool rate 0)
end.

(** The processor mutates the query; the model returns the query as it is
  afterwards. *)
Definition process_query (query : Query) (request_settings : RequestSettings)
: Query :=
let query :=
  if negb (supports_sample (get_data_source query))
  then set_sample query None
  else query in
if decide (get_sampling_config_mode request_settings = AUTO_DEPRECATED) then
  if truthy (get_sample query) then query
  else if get_turbo request_settings
       then set_sample query (Some TURBO_SAMPLE_RATE)
       else query
else query.

End Processor.
End SamplingRateProcessor.

(** ** Replacement messages ([snuba/replacer.py]) *)

Inductive FlagType : Type :=
| NEEDS_FINAL
| EXCLUDE_GROUPS
| NO_FLAG.

(** [query_time_flags == (type, project_id, [...data...])]; the data are
    absent from a tuple of two. *)
Record QueryTimeFlags : Type :=
  { flag_type : FlagType;
    project_id : Z;
    flag_data : option (list Z) }.

(** A unit of work: [(count_query_template, insert_query_template,
    query_args, query_time_flags)]. *)
Record Replacement : Type :=
  { count_query_template : string;
    insert_query_template : string;
    query_args : gmap string string;
    query_time_flags : QueryTimeFlags }.

Definition start_types : list string :=
  ["start_delete_groups"; "start_merge"; "start_unmerge"; "start_delete_tag"].

Definition end_types : list string :=
  ["end_merge"; "end_delete_tag"; "end_unmerge"; "end_delete_groups"].

(** [type_ in (...)]: only a string equals one of the names. *)
Definition type_in (type_ : Json) (names : list string) : bool :=
  match type_ with
  | JStr s => existsb (String.eqb s) names
  | _ => false
  end.

(** [version == 2]: a number equals 2 by its value, integer or float;
    nothing else does. *)
Definition equals_2 (version : Json) : bool :=
  match version with
  | JInt n => n =? 2
  | JFloat x => Qeq_bool x 2
  | _ => false
  end.

Section ProcessMessage.

(** [self.dataset.PROCESSOR.process_replacement], the replacement
    processor of the dataset. *)
Variable process_replacement : Json -> Json -> Result (option Replacement).

(** [message] is the decoded JSON array. *)
Definition process_message (message : list Json)
  : Result (option Replacement) :=
  match message with
  | [] => Raise IndexError
  | version :: _ =>
      if equals_2 version then
        match take 2 (drop 1 message) with
        | [type_; event] =>
            if type_in type_ start_types then Ok None
            else if type_in type_ end_types
                 then process_replacement type_ event
                 else Raise (InvalidMessageType type_)
        | _ => Raise ValueError
        end
      else Raise (InvalidMessageVersion message)
  end.

End ProcessMessage.

(** ** Redis

    The part of the Redis server the replacer uses: string keys with an
    expiry, and sorted sets of members with a score. The two families of
    keys have different prefixes and live in two maps. An expired key is
    gone: it reads as absent and a write starts from nothing. A sorted-set
    member is the decimal rendering [str(group_id)], read back with [int];
    the model keeps the integer. Times and scores are rationals. *)

Definition Qlt_bool (a b : Q) : bool := negb (Qle_bool b a).

(** A key with expiry [e] is there at time [now]. *)
Definition alive (expiry : option Q) (now : Q) : bool :=
  match expiry with
  | None => true
  | Some e => Qlt_bool now e
  end.

Record Redis : Type :=
  { strings : gmap string (string * option Q);
    zsets : gmap string (gmap Z Q * option Q) }.

Definition empty_redis : Redis := {| strings := ∅; zsets := ∅ |}.

(** Score bounds: a float, [float('-inf')] or [float('inf')]. *)
Inductive Bound : Type :=
| NegInf
| Finite (q : Q)
| PosInf.

Definition bound_le_score (b : Bound) (score : Q) : bool :=
  match b with
  | NegInf => true
  | Finite q => Qle_bool q score
  | PosInf => false
  end.

Definition score_le_bound (score : Q) (b : Bound) : bool :=
  match b with
  | NegInf => false
  | Finite q => Qle_bool score q
  | PosInf => true
  end.

Definition in_range (min max : Bound) (score : Q) : bool :=
  bound_le_score min score && score_le_bound score max.

(** The sorted set under [key] at time [now], with its expiry. *)
Definition live_zset (key : string) (now : Q) (r : Redis)
  : gmap Z Q * option Q :=
  match zsets r !! key with
  | Some (members, expiry) =>
      if alive expiry now then (members, expiry) else (∅, None)
  | None => (∅, None)
  end.

Inductive Command : Type :=
| GET (key : string)
| SET (key : string) (value : string) (ex : Z)
| ZADD (key : string) (mapping : list (Z * Q))
| ZREMRANGEBYSCORE (key : string) (min max : Bound)
| ZREVRANGEBYSCORE (key : string) (max min : Bound)
| EXPIRE (key : string) (seconds : Z).

Inductive Reply : Type :=
| Bulk (value : option string)
| Integer (n : Z)
| Members (members : list Z).

(** One command at server time [now]. [ZADD] is given at least one member
    by the replacer; [ZREVRANGEBYSCORE] lists the members in range, in an
    order the model leaves open (the caller sorts them). *)
Definition run (c : Command) (now : Q) (r : Redis) : Reply * Redis :=
  match c with
  | GET key =>
      match strings r !! key with
      | Some (value, expiry) =>
          (Bulk (if alive expiry now then Some value else None), r)
      | None => (Bulk None, r)
      end
  | SET key value ex =>
      (Bulk (Some "OK"),
       {| strings := <[key := (value, Some (now + inject_Z ex)%Q)]> (strings r);
          zsets := zsets r |})
  | ZADD key mapping =>
      let '(members, expiry) := live_zset key now r in
      let added :=
        length (filter (fun '(m, _) => members !! m = None) mapping) in
      let members' :=
        foldl (fun ms '(m, score) => <[m := score]> ms) members mapping in
      (Integer (Z.of_nat added),
       {| strings := strings r;
          zsets := <[key := (members', expiry)]> (zsets r) |})
  | ZREMRANGEBYSCORE key min max =>
      let '(members, expiry) := live_zset key now r in
      let kept := filter (fun kv => in_range min max (snd kv) = false) members in
      (Integer (Z.of_nat (size members - size kept)),
       {| strings := strings r;
          zsets := if decide (kept = ∅) then delete key (zsets r)
                   else <[key := (kept, expiry)]> (zsets r) |})
  | ZREVRANGEBYSCORE key max min =>
      let '(members, _) := live_zset key now r in
      (Members (map fst (map_to_list
                  (filter (fun kv => in_range min max (snd kv) = true) members))),
       r)
  | EXPIRE key seconds =>
      match zsets r !! key with
      | Some (members, expiry) =>
          if alive expiry now then
            (Integer 1,
             {| strings := strings r;
                zsets := if seconds <=? 0 then delete key (zsets r)
                         else <[key := (members,
                                        Some (now + inject_Z seconds)%Q)]>
                                (zsets r) |})
          else (Integer 0, r)
      | None => (Integer 0, r)
      end
  end.

(** [p.execute()]: the queued commands run in order; the replies come back
    in the same order. *)
Fixpoint execute (p : list Command) (now : Q) (r : Redis) : list Reply * Redis :=
  match p with
  | [] => ([], r)
  | c :: rest =>
      let '(reply, r1) := run c now r in
      let '(replies, r2) := execute rest now r1 in
      (reply :: replies, r2)
  end.

(** Truth value of a reply: [None], an empty string, zero and an empty list
    are falsy. *)
Definition reply_truthy (reply : Reply) : bool :=
  match reply with
  | Bulk None => false
  | Bulk (Some value) => negb (String.eqb value "")
  | Integer n => negb (n =? 0)
  | Members members => match members with [] => false | _ => true end
  end.

(** [sum(replies, [])]: only lists can be added to a list. *)
Fixpoint sum_lists (replies : list Reply) : Result (list Z) :=
  match replies with
  | [] => Ok []
  | Members members :: rest =>
      tail ← sum_lists rest;
      Ok (members ++ tail)%list
  | _ :: _ => Raise TypeError
  end.

(** [l[::2]] *)
Fixpoint every_second {A : Type} (l : list A) : list A :=
  match l with
  | [] => []
  | [x] => [x]
  | x :: _ :: rest => x :: every_second rest
  end.

(** [sorted({...})]: duplicates removed, ascending. *)
Definition sorted_set (l : list Z) : list Z :=
  merge_sort Z.le (remove_dups l).

(** ** The consistency flags ([snuba/replacer.py]) *)

Definition get_project_exclude_groups_key (project_id : Z) : string :=
  "project_exclude_groups:" +:+ pretty project_id.

Definition get_project_needs_final_key (project_id : Z) : string :=
  "project_needs_final:" +:+ pretty project_id.

Section Replacer.

(** [settings.REPLACER_KEY_TTL], in seconds. *)
Variable REPLACER_KEY_TTL : Z.

(** [now] is [time.time()], also the time of the server when the pipeline
    runs. *)
Definition set_project_exclude_groups (project_id : Z) (group_ids : list Z)
  (now : Q) (r : Redis) : Redis :=
  let key := get_project_exclude_groups_key project_id in
  let p :=
    [ ZADD key (map (fun group_id => (group_id, now)) group_ids);
      ZREMRANGEBYSCORE key (Finite (-1)) (Finite (now - inject_Z REPLACER_KEY_TTL));
      EXPIRE key REPLACER_KEY_TTL ] in
  snd (execute p now r).

Definition set_project_needs_final (project_id : Z) (now : Q) (r : Redis)
  : Redis :=
  snd (run (SET (get_project_needs_final_key project_id) "True" REPLACER_KEY_TTL)
         now r).

Definition get_projects_query_flags (project_ids : list Z) (now : Q)
  (r : Redis) : Result (bool * list Z) * Redis :=
  let project_ids := remove_dups project_ids in
  let needs_final_keys := map get_project_needs_final_key project_ids in
  let exclude_groups_keys := map get_project_exclude_groups_key project_ids in
  let p :=
    (map GET needs_final_keys
     ++ flat_map (fun exclude_groups_key =>
          [ ZREMRANGEBYSCORE exclude_groups_key NegInf
              (Finite (now - inject_Z REPLACER_KEY_TTL));
            ZREVRANGEBYSCORE exclude_groups_key PosInf
              (Finite (now - inject_Z REPLACER_KEY_TTL)) ])
          exclude_groups_keys)%list in
  let '(results, r') := execute p now r in
  let needs_final :=
    existsb reply_truthy (take (length project_ids) results) in
  (exclude_groups ←
     sum_lists (every_second (drop (length project_ids + 1) results));
   Ok (needs_final, sorted_set exclude_groups),
   r').

End Replacer.

(** ** The replacer worker ([snuba/replacer.py]) *)

(** The calls the worker makes to its collaborators. *)
Inductive Call : Type :=
| ExecuteRobust (query : string)
| SetProjectNeedsFinal (project_id : Z)
| SetProjectExcludeGroups (project_id : Z) (group_ids : list Z).

Section ReplacerWorker.

(** [settings.REPLACER_KEY_TTL] and [self.dataset.SCHEMA.QUERY_TABLE]. *)
Variable REPLACER_KEY_TTL : Z.
Variable QUERY_TABLE : string.

(** [template % query_args], Python's string formatting. *)
Variable format : string -> gmap string string -> string.

(** What lies outside the worker: the column store behind
    [self.clickhouse] and the wall clock. [execute_robust] runs a query
    and returns its rows; [time_time] reads the clock. *)
Context {Environment : Type}.
Variable execute_robust : string -> Environment -> list (list Z) * Environment.
Variable time_time : Environment -> Q.

(** The state a flush works on; [calls] records the calls made so far, in
    order. Logging and metrics are left out. *)
Record World : Type :=
  { environment : Environment;
    redis : Redis;
    calls : list Call }.

(** A step of the worker: it changes the world and returns or raises; what
    was done before an exception stays done. *)
Definition Step (A : Type) : Type := World -> Result A * World.

Definition returns {A : Type} (a : A) : Step A := fun w => (Ok a, w).

Definition raises {A : Type} (e : Exception) : Step A := fun w => (Raise e, w).

Definition and_then {A B : Type} (step : Step A) (k : A -> Step B) : Step B :=
  fun w =>
    match step w with
    | (Ok a, w') => k a w'
    | (Raise e, w') => (Raise e, w')
    end.

Definition call_execute_robust (query : string) : Step (list (list Z)) :=
  fun w =>
    let '(rows, environment') := execute_robust query (environment w) in
    (Ok rows,
     {| environment := environment';
        redis := redis w;
        calls := (calls w ++ [ExecuteRobust query])%list |}).

Definition call_set_project_needs_final (project_id : Z) : Step unit :=
  fun w =>
    (Ok tt,
     {| environment := environment w;
        redis := set_project_needs_final REPLACER_KEY_TTL project_id
                   (time_time (environment w)) (redis w);
        calls := (calls w ++ [SetProjectNeedsFinal project_id])%list |}).

Definition call_set_project_exclude_groups (project_id : Z)
  (group_ids : list Z) : Step unit :=
  fun w =>
    (Ok tt,
     {| environment := environment w;
        redis := set_project_exclude_groups REPLACER_KEY_TTL project_id
                   group_ids (time_time (environment w)) (redis w);
        calls := (calls w ++ [SetProjectExcludeGroups project_id group_ids])%list |}).

(** [rows[0][0]] *)
Definition first_cell (rows : list (list Z)) : Step Z :=
  match rows with
  | (cell :: _) :: _ => returns cell
  | _ => raises IndexError
  end.

Fixpoint flush_batch (batch : list Replacement) : Step unit :=
  match batch with
  | [] => returns tt
  | unit_of_work :: rest =>
      let query_args := <["table_name" := QUERY_TABLE]> (query_args unit_of_work) in
      and_then
        (call_execute_robust (format (count_query_template unit_of_work) query_args))
        (fun rows =>
      and_then (first_cell rows) (fun count =>
      if count =? 0 then flush_batch rest
      else
        let flags := query_time_flags unit_of_work in
        and_then
          (match flag_type flags with
           | NEEDS_FINAL => call_set_project_needs_final (project_id flags)
           | EXCLUDE_GROUPS =>
               match flag_data flags with
               | Some group_ids =>
                   call_set_project_exclude_groups (project_id flags) group_ids
               | None => raises IndexError
               end
           | NO_FLAG => returns tt
           end)
          (fun _ =>
        and_then
          (call_execute_robust
             (format (insert_query_template unit_of_work) query_args))
          (fun _ => flush_batch rest))))
  end.

End ReplacerWorker.

(** ** Vocabulary of the properties *)

Definition NULL : Expression := Literal None VNone.

(** The identity visitor, which leaves every node as it is. *)
Definition untranslated : Translator := fun e => Ok e.

(** A translated parameter that counts as null: the NULL literal, or a
    call already collapsed to [ifNull(NULL, NULL)]. *)
Definition null_parameter (p : Expression) : bool :=
  match p with
  | Literal _ VNone => true
  | FunctionCall _ name [Literal _ VNone; Literal _ VNone] => String.eqb name "ifNull"
  | _ => false
  end.

(** A translated parameter that stops the collapse: a literal other than
    NULL, or a node that is not a literal and not a call of [ifNull] on two
    literals. *)
Definition blocking_parameter (p : Expression) : bool :=
  match p with
  | Literal _ VNone => false
  | Literal _ _ => true
  | FunctionCall _ name [Literal _ _; Literal _ _] => negb (String.eqb name "ifNull")
  | _ => true
  end.

(** The errors of a malformed replacement message. *)
Definition malformed_message (e : Exception) : Prop :=
  match e with
  | InvalidMessageType _ | InvalidMessageVersion _ => True
  | _ => False
  end.

(** The version of a message is the number 2. *)
Definition version_2 (version : Json) : Prop :=
  version = JInt 2 \/ exists x : Q, version = JFloat x /\ (x == 2)%Q.

(** The type of a message is a string, one of [markers]. *)
Definition marker (markers : list string) (type_ : Json) : Prop :=
  exists s : string, type_ = JStr s /\ In s markers.

(** Project [project_id] has an unexpired needs-final flag at time [now]. *)
Definition needs_final_flag (r : Redis) (now : Q) (project_id : Z) : Prop :=
  exists (value : string) (expiry : option Q),
    strings r !! get_project_needs_final_key project_id = Some (value, expiry)
    /\ alive expiry now = true
    /\ value <> "".

(** [group_id] is held, not expired, in the sorted set under [key]: the key
    is there and the score of the member is younger than the retention
    window. *)
Definition excluded_at (ttl : Z) (r : Redis) (now : Q) (key : string)
  (group_id : Z) : Prop :=
  exists (members : gmap Z Q) (expiry : option Q) (score : Q),
    zsets r !! key = Some (members, expiry)
    /\ alive expiry now = true
    /\ members !! group_id = Some score
    /\ (now - inject_Z ttl < score)%Q.

(** [group_id] is a non-expired excluded id of project [project_id]. *)
Definition excluded (ttl : Z) (r : Redis) (now : Q) (project_id group_id : Z)
  : Prop :=
  excluded_at ttl r now (get_project_exclude_groups_key project_id) group_id.

(** The store after the stale members under [key] are trimmed. *)
Definition prune (ttl : Z) (key : string) (now : Q) (r : Redis) : Redis :=
  snd (run (ZREMRANGEBYSCORE key NegInf (Finite (now - inject_Z ttl))) now r).

(** A column store for examples: the environment is the clock, every query
    takes a second, and only the replacement named "merged" counts rows. *)
Definition example_execute_robust (query : string) (clock : Q)
  : list (list Z) * Q :=
  (if String.eqb query "count merged" then [[3]]
   else if String.eqb query "count deleted" then [[0]]
        else [],
   (clock + 1)%Q).

Definition example_format (template : string) (args : gmap string string)
  : string :=
  template.

Definition example_merged : Replacement :=
  {| count_query_template := "count merged";
     insert_query_template := "insert merged";
     query_args := ∅;
     query_time_flags :=
       {| flag_type := NEEDS_FINAL; project_id := 7; flag_data := None |} |}.

Definition example_deleted : Replacement :=
  {| count_query_template := "count deleted";
     insert_query_template := "insert deleted";
     query_args := ∅;
     query_time_flags :=
       {| flag_type := EXCLUDE_GROUPS; project_id := 7;
          flag_data := Some [1; 2] |} |}.

Definition example_excluding : Replacement :=
  {| count_query_template := "count merged";
     insert_query_template := "insert merged";
     query_args := ∅;
     query_time_flags :=
       {| flag_type := EXCLUDE_GROUPS; project_id := 7;
          flag_data := Some [1; 2] |} |}.

Definition example_unanswered : Replacement :=
  {| count_query_template := "count nothing";
     insert_query_template := "insert nothing";
     query_args := ∅;
     query_time_flags :=
       {| flag_type := NEEDS_FINAL; project_id := 7; flag_data := None |} |}.

Definition example_world : @World Q :=
  {| environment := 0%Q; redis := empty_redis; calls := [] |}.

(** ** Further vocabulary *)

(** The call both ifNull-collapse mappers stand for: [ifNull(NULL, NULL)]
    under alias [a]. *)
Definition collapsed (a : option string) : Expression :=
  FunctionCall a "ifNull" [NULL; NULL].

(** An expression with nothing behind it on the transactions storage: a NULL
    literal, a reference to an events column other than [group_id], or a
    call, not one of the two functions the transactions chain turns into
    [identity(NULL)], with at least one parameter and only such
    parameters. *)
Fixpoint missing_on_transactions (e : Expression) : bool :=
  match e with
  | Literal _ VNone => true
  | Column _ _ name =>
      contains EVENTS_COLUMNS name && negb (String.eqb name "group_id")
  | FunctionCall _ name ps =>
      negb (existsb (String.eqb name) ["isHandled"; "notHandled"])
      && match ps with [] => false | _ => true end
      && forallb missing_on_transactions ps
  | _ => false
  end.

(** A store written up to time [T] by the replacer: no score lies in the
    future, and a sorted set expires no earlier than a retention window
    after the score of each member. *)
Definition written_by (ttl : Z) (T : Q) (r : Redis) : Prop :=
  forall (key : string) (members : gmap Z Q) (expiry : option Q) (g : Z) (score : Q),
    zsets r !! key = Some (members, expiry) ->
    members !! g = Some score ->
    (score <= T)%Q
    /\ exists e : Q, expiry = Some e /\ (score + inject_Z ttl <= e)%Q.

(** The projects the units of a batch name. *)
Definition projects_of (batch : list Replacement) : list Z :=
  map (fun u => project_id (query_time_flags u)) batch.

(** ** The storage factory ([snuba/datasets/storages/factory.py]) *)

Section Factory.

(** The storage objects the module imports. *)
Context {Storage : Type}.
Variables errors_storage events_storage groupassignees_storage
  groupedmessages_storage transactions_storage outcomes_raw_storage
  outcomes_hourly_storage : Storage.

Definition WRITABLE_STORAGES : gmap string Storage :=
  <["errors" := errors_storage]>
    (<["events" := events_storage]>
       (<["groupedmessages" := groupedmessages_storage]>
          (<["groupassignees" := groupassignees_storage]>
             (<["outcomes_raw" := outcomes_raw_storage]>
                (<["transactions" := transactions_storage]> ∅))))).

Definition NON_WRITABLE_STORAGES : gmap string Storage :=
  <["outcomes_hourly" := outcomes_hourly_storage]> ∅.

(** [{**WRITABLE_STORAGES, **NON_WRITABLE_STORAGES}]: on a common key the
    later mapping wins. *)
Definition STORAGES : gmap string Storage :=
  NON_WRITABLE_STORAGES ∪ WRITABLE_STORAGES.

(** [STORAGES[storage_key]]; [None] stands for the [KeyError] of a missing
    key. *)
Definition get_storage (storage_key : string) : option Storage :=
  STORAGES !! storage_key.

Definition get_writable_storage (storage_key : string) : option Storage :=
  WRITABLE_STORAGES !! storage_key.

End Factory.

(** * Properties *)

(** ** The discover mappers *)

#[local] Arguments String.eqb : simpl never.

Lemma all_null_of_null_parameters (ps : list Expression) :
  forallb null_parameter ps = true -> all_null ps = true.
Proof.
  induction ps as [|p ps IH]; simpl; [done|].
  intros [Hp Hps]%andb_prop. specialize (IH Hps).
  destruct p as [a v|a tn c|a c k|a n args|a f args]; simpl in Hp; try done.
  - by destruct v.
  - destruct args as [|[? []| | | |] [|[? []| | | |] []]]; try done.
    by rewrite String.eqb_sym, Hp.
Qed.

Lemma all_null_blocked (ps : list Expression) :
  existsb blocking_parameter ps = true -> all_null ps = false.
Proof.
  induction ps as [|p ps IH]; simpl; [done|].
  intros [Hp|Hps]%orb_prop.
  - destruct p as [a v|a tn c|a c k|a n args|a f args]; simpl in *; try done.
    + by destruct v.
    + rewrite String.eqb_sym.
      destruct (String.eqb n "ifNull"); simpl; [|done].
      destruct args as [|[]]; try done.
      destruct args as [|[] args]; try done.
      destruct args; simpl in *; done.
  - rewrite (IH Hps). by repeat case_match.
Qed.

Lemma length_positive {A : Type} (l : list A) :
  (0 <? Z.of_nat (length l)) = negb (bool_decide (l = [])).
Proof. by destruct l. Qed.

(** C2 (as stated, refuted): the function variant collapses a one-argument
    call that is not named [ifNull]: [foo(NULL)] becomes [ifNull(NULL, NULL)],
    so the calls collapsed are not exactly the two-argument calls named
    [ifNull]. *)
Lemma ifNull_collapse_ignores_name_and_arity :
  attempt_map DefaultIfNullFunctionMapper_
    (FunctionCall (Some "x") "foo" [NULL]) untranslated
  = Ok (Some (FunctionCall (Some "x") "ifNull" [NULL; NULL])).
Proof. reflexivity. Qed.

(** C2 (amended): whatever the name and the number of parameters of the
    call, the ifNull-collapse mappers collapse it when it has at least one
    parameter and every recursively translated parameter is the NULL literal
    or an already collapsed [ifNull(NULL, NULL)]: the function variant
    returns [ifNull(NULL, NULL)] with the call's alias, the curried variant
    renames the translated inner function to [<name>OrNull], replaces every
    parameter with NULL and keeps the alias. A call with no parameter, or
    with a translated parameter that is a non-NULL literal or neither a
    literal nor an [ifNull] call on two literals, is left to the next rule
    (the mapper returns [None]); so is [ifNull(NULL, Literal(5))]. *)
Theorem ifNull_mappers_collapse
  (t : Translator) (a : option string) (ps ps' : list Expression)
  (Hps : for_each (fun p => accept p t) ps = Ok ps') :
  (forall name : string,
      (ps' <> [] -> forallb null_parameter ps' = true ->
       attempt_map DefaultIfNullFunctionMapper_ (FunctionCall a name ps) t
       = Ok (Some (FunctionCall a "ifNull" [NULL; NULL])))
      /\ (ps' = [] \/ existsb blocking_parameter ps' = true ->
          attempt_map DefaultIfNullFunctionMapper_ (FunctionCall a name ps) t
          = Ok None))
  /\ (forall (f : Expression) (ia : option string) (iname : string)
        (ips : list Expression),
         accept f t = Ok (FunctionCall ia iname ips) ->
         (ps' <> [] -> forallb null_parameter ps' = true ->
          attempt_map DefaultIfNullCurriedFunctionMapper_
            (CurriedFunctionCall a f ps) t
          = Ok (Some (CurriedFunctionCall a
                        (FunctionCall None (iname ++ "OrNull") ips)
                        (map (fun _ => NULL) ps'))))
         /\ (ps' = [] \/ existsb blocking_parameter ps' = true ->
             attempt_map DefaultIfNullCurriedFunctionMapper_
               (CurriedFunctionCall a f ps) t
             = Ok None))
  /\ attempt_map DefaultIfNullFunctionMapper_
       (FunctionCall a "ifNull" [NULL; Literal None (VInt 5)]) untranslated
     = Ok None.
Proof.
  split; [|split]; [| |reflexivity].
  - intros name. split.
    + intros Hne Hnull.
      unfold attempt_map, DefaultIfNullFunctionMapper_attempt_map. simpl.
      rewrite Hps. simpl.
      rewrite (all_null_of_null_parameters _ Hnull), length_positive.
      by rewrite bool_decide_eq_false_2.
    + intros Hblock.
      unfold attempt_map, DefaultIfNullFunctionMapper_attempt_map. simpl.
      rewrite Hps. simpl.
      destruct Hblock as [->|Hblock]; [done|].
      by rewrite (all_null_blocked _ Hblock).
  - intros f ia iname ips Hf. split.
    + intros Hne Hnull.
      unfold attempt_map, DefaultIfNullCurriedFunctionMapper_attempt_map. simpl.
      rewrite Hf. simpl. rewrite Hps. simpl.
      rewrite (all_null_of_null_parameters _ Hnull), length_positive.
      by rewrite bool_decide_eq_false_2.
    + intros Hblock.
      unfold attempt_map, DefaultIfNullCurriedFunctionMapper_attempt_map. simpl.
      rewrite Hf. simpl. rewrite Hps. simpl.
      destruct Hblock as [->|Hblock]; [done|].
      by rewrite (all_null_blocked _ Hblock).
Qed.

Lemma ifNull_mappers_collapse_witness :
  attempt_map DefaultIfNullFunctionMapper_
    (FunctionCall (Some "x") "ifNull"
       [FunctionCall None "ifNull" [NULL; NULL]; NULL]) untranslated
  = Ok (Some (FunctionCall (Some "x") "ifNull" [NULL; NULL])).
Proof.
  apply (ifNull_mappers_collapse untranslated (Some "x")
           [FunctionCall None "ifNull" [NULL; NULL]; NULL]
           [FunctionCall None "ifNull" [NULL; NULL]; NULL] eq_refl).
  - discriminate.
  - reflexivity.
Defined.

(** C7 (as stated, refuted): an alias that is the empty string is not
    preserved: Python's [or] takes the empty alias for a missing one, and the
    NULL literal carries the qualified column name instead. *)
Lemma DefaultNoneColumnMapper_drops_empty_alias :
  contains EVENTS_COLUMNS "group_id" = true
  /\ attempt_map {| columns := EVENTS_COLUMNS |}
       (Column (Some "") None "group_id") untranslated
     = Ok (Some (Literal (Some "group_id") VNone))
  /\ attempt_map {| columns := EVENTS_COLUMNS |}
       (Column (Some "") None "group_id") untranslated
     <> Ok (Some (Literal (Some "") VNone)).
Proof. repeat split; [reflexivity..|discriminate]. Qed.

(** C7 (amended): for every column reference whose name is in the
    configured null-column set, the Column-to-NULL mapper returns a NULL
    literal that preserves the reference's alias when that alias is not
    empty -- [Column{name="group_id", alias="g"}] becomes
    [Literal{value=null, alias="g"}] -- and when the reference has no alias,
    or an empty one, the table-qualified column name is used as the alias;
    references to columns outside the set yield absent. *)
Theorem DefaultNoneColumnMapper_maps_to_null
  (self : DefaultNoneColumnMapper) (a table : option string) (name : string)
  (t : Translator) :
  (contains (columns self) name = true ->
   (forall s : string, a = Some s -> s <> "" ->
      attempt_map self (Column a table name) t = Ok (Some (Literal (Some s) VNone)))
   /\ (a = None \/ a = Some "" ->
       attempt_map self (Column a table name) t
       = Ok (Some (Literal (Some (qualified_column name (default "" table))) VNone))))
  /\ (contains (columns self) name = false ->
      attempt_map self (Column a table name) t = Ok None)
  /\ attempt_map {| columns := EVENTS_COLUMNS |}
       (Column (Some "g") None "group_id") t
     = Ok (Some (Literal (Some "g") VNone)).
Proof.
  split; [|split]; [| |reflexivity].
  - intros Hin. unfold attempt_map, DefaultNoneColumnMapper_attempt_map.
    simpl. rewrite Hin. simpl. split.
    + intros s -> Hs. simpl.
      destruct (String.eqb_spec s ""); [done|reflexivity].
    + by intros [->| ->].
  - intros Hout. unfold attempt_map, DefaultNoneColumnMapper_attempt_map.
    simpl. by rewrite Hout.
Qed.

Lemma DefaultNoneColumnMapper_maps_to_null_witness :
  attempt_map {| columns := TRANSACTIONS_COLUMNS |}
    (Column (Some "d") (Some "events") "duration") untranslated
  = Ok (Some (Literal (Some "d") VNone))
  /\ attempt_map {| columns := TRANSACTIONS_COLUMNS |}
       (Column None (Some "events") "duration") untranslated
     = Ok (Some (Literal (Some "events.duration") VNone))
  /\ attempt_map {| columns := TRANSACTIONS_COLUMNS |}
       (Column (Some "g") None "group_id") untranslated
     = Ok None.
Proof.
  split; [|split].
  - apply (DefaultNoneColumnMapper_maps_to_null {| columns := TRANSACTIONS_COLUMNS |}
             (Some "d") (Some "events") "duration" untranslated);
      [reflexivity|reflexivity|discriminate].
  - apply (DefaultNoneColumnMapper_maps_to_null {| columns := TRANSACTIONS_COLUMNS |}
             None (Some "events") "duration" untranslated);
      [reflexivity|by left].
  - apply (DefaultNoneColumnMapper_maps_to_null {| columns := TRANSACTIONS_COLUMNS |}
             (Some "g") None "group_id" untranslated).
    reflexivity.
Defined.

(** ** The strict translator *)

Lemma foldr_max_ge (x : nat) (l : list nat) :
  In x l -> (x <= foldr Nat.max O l)%nat.
Proof.
  induction l as [|y l IH]; simpl; [done|].
  intros [->|Hin]; [lia|]. specialize (IH Hin). lia.
Qed.

Lemma children_height (s e : Expression) :
  In s (children e) -> (height s < height e)%nat.
Proof.
  destruct e as [a v|a tn c|a c k|a n ps|a f ps]; simpl; try done.
  - intros [<-|[<-|[]]]; lia.
  - intros Hin. apply (in_map height), foldr_max_ge in Hin. lia.
  - intros [<-|Hin]; [lia|].
    apply (in_map height), foldr_max_ge in Hin. lia.
Qed.

Lemma subexpression_height (s e : Expression) :
  subexpression s e -> (height s < height e)%nat.
Proof.
  induction 1 as [s e Hin|s c e _ IH Hin].
  - by apply children_height.
  - apply children_height in Hin. lia.
Qed.

Lemma children_well_formed (s e : Expression) :
  well_formed e = true -> In s (children e) -> well_formed s = true.
Proof.
  destruct e as [a v|a tn c|a c k|a n ps|a f ps]; simpl; try done.
  - intros [Hc Hk]%andb_prop [<-|[<-|[]]]; [by destruct c|done].
  - intros Hps Hin. by apply (proj1 (forallb_forall _ _) Hps).
  - intros [[_ Hf]%andb_prop Hps]%andb_prop [<-|Hin]; [done|].
    by apply (proj1 (forallb_forall _ _) Hps).
Qed.

Lemma subexpression_well_formed (s e : Expression) :
  well_formed e = true -> subexpression s e -> well_formed s = true.
Proof.
  intros He Hsub. induction Hsub as [s e Hin|s c e _ IH Hin].
  - by apply (children_well_formed s e).
  - apply IH. by apply (children_well_formed c e).
Qed.

Lemma for_each_ext {A B : Type} (f g : A -> Result B) (ps : list A) :
  (forall p : A, In p ps -> f p = g p) -> for_each f ps = for_each g ps.
Proof.
  induction ps as [|p ps IH]; simpl; [done|].
  intros Hext. rewrite (Hext p) by by left.
  rewrite IH; [done|]. intros q Hq. apply Hext. by right.
Qed.

Lemma for_each_ok {A B : Type} (f : A -> Result B) (ps : list A) :
  (forall p : A, In p ps -> exists p' : B, f p = Ok p') ->
  exists ps' : list B, for_each f ps = Ok ps'.
Proof.
  induction ps as [|p ps IH]; simpl; [by eexists|].
  intros Hok. destruct (Hok p) as [p' ->]; [by left|].
  destruct IH as [ps' ->]; [|by eexists].
  intros q Hq. apply Hok. by right.
Qed.

Lemma translate_structurally_local (e : Expression) (t1 t2 : Translator) :
  (forall s : Expression, In s (children e) -> t1 s = t2 s) ->
  translate_structurally e t1 = translate_structurally e t2.
Proof.
  destruct e as [a v|a tn c|a c k|a n ps|a f ps]; simpl; try done;
    intros Hext; unfold accept.
  - rewrite (Hext c), (Hext k); [done|by right; left|by left].
  - by rewrite (for_each_ext (fun p => t1 p) (fun p => t2 p) ps Hext).
  - rewrite (Hext f) by by left.
    rewrite (for_each_ext (fun p => t1 p) (fun p => t2 p) ps); [done|].
    intros p Hp. apply Hext. by right.
Qed.

Lemma translate_structurally_ok (e : Expression) (t : Translator) :
  well_formed e = true -> translates_below t e ->
  exists e' : Expression,
    translate_structurally e t = Ok e'
    /\ (is_FunctionCall e = true -> is_FunctionCall e' = true).
Proof.
  intros Hwf Ht.
  assert (Hchild : forall s, In s (children e) ->
            exists s', t s = Ok s'
                       /\ (is_FunctionCall s = true -> is_FunctionCall s' = true)).
  { intros s Hs. apply Ht. by constructor. }
  destruct e as [a v|a tn c|a c k|a n ps|a f ps]; simpl in *;
    try (by eexists); unfold accept.
  - destruct (Hchild c) as (c' & -> & _); [by left|].
    destruct (Hchild k) as (k' & -> & _); [by right; left|].
    by eexists.
  - destruct (for_each_ok (fun p => t p) ps) as [ps' ->]; [|by eexists].
    intros p Hp. destruct (Hchild p Hp) as (p' & -> & _). by eexists.
  - apply andb_prop in Hwf as [[Hf _]%andb_prop _].
    destruct (Hchild f) as (f' & -> & Hshape); [by left|].
    simpl. rewrite (Hshape Hf). simpl.
    destruct (for_each_ok (fun p => t p) ps) as [ps' ->]; [|by eexists].
    intros p Hp. destruct (Hchild p) as (p' & -> & _); [by right|]. by eexists.
Qed.

Lemma apply_rules_local (rules : list Rule) (e : Expression)
  (t1 t2 : Translator) (d1 d2 : Result Expression) :
  (forall r : Rule, In r rules -> r e t1 = r e t2) -> d1 = d2 ->
  apply_rules rules e t1 d1 = apply_rules rules e t2 d2.
Proof.
  intros Hext ->. induction rules as [|r rules IH]; simpl; [done|].
  rewrite (Hext r) by by left.
  rewrite IH; [done|]. intros r' Hr'. apply Hext. by right.
Qed.

Lemma apply_rules_ok (kind : Expression -> bool) (same_kind : bool)
  (rules : list Rule) (e : Expression) (t : Translator) (d : Result Expression) :
  Forall (honours_contract kind same_kind) rules ->
  kind e = true -> well_formed e = true -> translates_below t e ->
  (exists e' : Expression,
      d = Ok e' /\ (same_kind = true -> kind e' = true)) ->
  exists e' : Expression,
    apply_rules rules e t d = Ok e' /\ (same_kind = true -> kind e' = true).
Proof.
  intros Hrules Hkind Hwf Ht Hd.
  induction Hrules as [|r rules Hr _ IH]; simpl; [done|].
  destruct (contract_decides _ _ _ Hr e t Hkind Hwf Ht) as [[e'|] Hre];
    rewrite Hre; simpl; [|done].
  exists e'. split; [done|]. intros Hsame.
  by apply (contract_same_kind _ _ _ Hr e e' t).
Qed.

Lemma apply_rules_first_wins (before after : list Rule) (r : Rule)
  (e e' : Expression) (t : Translator) (d : Result Expression) :
  (forall r0 : Rule, In r0 before -> r0 e t = Ok None) ->
  r e t = Ok (Some e') ->
  apply_rules (before ++ r :: after)%list e t d = Ok e'.
Proof.
  intros Hbefore Hr. induction before as [|r0 before IH]; simpl.
  - by rewrite Hr.
  - rewrite (Hbefore r0) by by left. simpl.
    apply IH. intros r1 Hr1. apply Hbefore. by right.
Qed.

Lemma apply_rules_none_claims (rules : list Rule) (e : Expression)
  (t : Translator) (d : Result Expression) :
  (forall r : Rule, In r rules -> r e t = Ok None) ->
  apply_rules rules e t d = d.
Proof.
  intros Hnone. induction rules as [|r rules IH]; simpl; [done|].
  rewrite (Hnone r) by by left. simpl.
  apply IH. intros r' Hr'. apply Hnone. by right.
Qed.

Lemma rules_for_contract (mappers : TranslationMappers.t) (e : Expression) :
  chain_honours_contract mappers ->
  exists (kind : Expression -> bool) (same_kind : bool),
    Forall (honours_contract kind same_kind) (rules_for mappers e)
    /\ kind e = true
    /\ (same_kind = true -> forall x : Expression, kind x = is_FunctionCall x)
    /\ (is_FunctionCall e = true -> same_kind = true).
Proof.
  intros [Hcol Hfun Hcur Hsub].
  destruct e as [a v|a tn c|a c k|a n ps|a f ps]; simpl.
  - exists is_Literal, false. by repeat split.
  - exists is_Column, false. by repeat split.
  - exists is_SubscriptableReference, false. by repeat split.
  - exists is_FunctionCall, true. by repeat split.
  - exists is_CurriedFunctionCall, false. by repeat split.
Qed.

Lemma translate_expression_total (mappers : TranslationMappers.t) :
  chain_honours_contract mappers ->
  forall (h : nat) (e : Expression),
    (height e < h)%nat -> well_formed e = true ->
    exists e' : Expression,
      (is_FunctionCall e = true -> is_FunctionCall e' = true)
      /\ forall fuel : nat, (height e < fuel)%nat ->
           translate_expression fuel mappers e = Ok e'.
Proof.
  intros Hchain. induction h as [|h IH]; intros e Hh Hwf; [lia|].
  set (t0 := translate_expression (height e) mappers).
  assert (Hbelow : forall s, subexpression s e ->
            exists s', (is_FunctionCall s = true -> is_FunctionCall s' = true)
              /\ forall fuel, (height s < fuel)%nat ->
                   translate_expression fuel mappers s = Ok s').
  { intros s Hs. apply IH.
    - apply subexpression_height in Hs. lia.
    - by apply (subexpression_well_formed s e). }
  assert (Ht0 : translates_below t0 e).
  { intros s Hs. destruct (Hbelow s Hs) as (s' & Hshape & Hs').
    exists s'. split; [|done]. apply Hs'. by apply subexpression_height. }
  destruct (rules_for_contract mappers e Hchain)
    as (kind & same_kind & Hrules & Hkind & Hsame & Hcall).
  destruct (translate_structurally_ok e t0 Hwf Ht0) as (e0 & He0 & Hshape0).
  destruct (apply_rules_ok kind same_kind (rules_for mappers e) e t0
              (translate_structurally e t0) Hrules Hkind Hwf Ht0)
    as (e' & He' & Hshape').
  { exists e0. split; [done|]. intros Hs. rewrite (Hsame Hs).
    apply Hshape0. by rewrite <- (Hsame Hs). }
  exists e'. split.
  { intros He. rewrite <- (Hsame (Hcall He)). by apply Hshape', Hcall. }
  intros [|fuel] Hfuel; [lia|]. simpl. rewrite <- He'.
  assert (Hagree : forall s, subexpression s e ->
            translate_expression fuel mappers s = t0 s).
  { intros s Hs. destruct (Hbelow s Hs) as (s' & _ & Hs').
    pose proof (subexpression_height s e Hs).
    unfold t0. rewrite !Hs'; [done|lia..]. }
  apply apply_rules_local.
  - intros r Hr. apply (proj1 (List.Forall_forall _ _) Hrules r Hr).
    exact Hagree.
  - apply translate_structurally_local. intros s Hs.
    apply Hagree. by constructor.
Qed.

(** *** The discover mappers honour the contract *)

Lemma DefaultNoneColumnMapper_contract (self : DefaultNoneColumnMapper) :
  honours_contract is_Column false (rule self).
Proof.
  split; [done| |done].
  intros [a v|a tn c|a c k|a n ps|a f ps] t; try done. intros _ _ _.
  unfold rule, attempt_map, DefaultNoneColumnMapper_attempt_map. simpl.
  destruct (contains _ _); by eexists.
Qed.

Lemma ColumnToLiteral_contract (self : ColumnToLiteral) :
  honours_contract is_Column false (rule self).
Proof.
  split; [done| |done].
  intros [a v|a tn c|a c k|a n ps|a f ps] t; try done. intros _ _ _.
  unfold rule, attempt_map, ColumnToLiteral_attempt_map. simpl.
  destruct (_ && _); by eexists.
Qed.

Lemma DefaultNoneFunctionMapper_contract (self : DefaultNoneFunctionMapper) :
  honours_contract is_FunctionCall true (rule self).
Proof.
  split; [done| |].
  - intros e t _ _ _.
    unfold rule, attempt_map, DefaultNoneFunctionMapper_attempt_map.
    destruct (match_ _ _); by eexists.
  - intros e e' t _ _.
    unfold rule, attempt_map, DefaultNoneFunctionMapper_attempt_map.
    destruct (match_ _ _); [|done]. by intros [= <-].
Qed.

Lemma DefaultNoneSubscriptMapper_contract (self : DefaultNoneSubscriptMapper) :
  honours_contract is_SubscriptableReference false (rule self).
Proof.
  split; [done| |done].
  intros [a v|a tn c|a c k|a n ps|a f ps] t; try done.
  simpl. intros _ [Hc _]%andb_prop _.
  unfold rule, attempt_map, DefaultNoneSubscriptMapper_attempt_map. simpl.
  destruct c; try done. simpl.
  destruct (existsb _ _); by eexists.
Qed.

Lemma DefaultIfNullFunctionMapper_contract :
  honours_contract is_FunctionCall true (rule DefaultIfNullFunctionMapper_).
Proof.
  split.
  - intros e t1 t2 Hext.
    unfold rule, attempt_map, DefaultIfNullFunctionMapper_attempt_map.
    destruct e as [a v|a tn c|a c k|a n ps|a f ps]; simpl; try done.
    + rewrite (for_each_ext (fun p => accept p t1) (fun p => accept p t2)); [done|].
      intros p Hp. apply Hext. by constructor.
    + rewrite (for_each_ext (fun p => accept p t1) (fun p => accept p t2)); [done|].
      intros p Hp. apply Hext. constructor. by right.
  - intros [a v|a tn c|a c k|a n ps|a f ps] t; try done. intros _ _ Ht.
    unfold rule, attempt_map, DefaultIfNullFunctionMapper_attempt_map. simpl.
    destruct (for_each_ok (fun p => accept p t) ps) as [ps' ->].
    + intros p Hp. unfold accept.
      destruct (Ht p) as (p' & -> & _); [by constructor|by eexists].
    + simpl. destruct (_ && _); by eexists.
  - intros e e' t _ _.
    unfold rule, attempt_map, DefaultIfNullFunctionMapper_attempt_map.
    destruct (parameters e) as [ps|]; [|done]. simpl.
    destruct (for_each _ ps) as [ps'|]; [|done]. simpl.
    destruct (_ && _); [|done]. by intros [= <-].
Qed.

Lemma DefaultIfNullCurriedFunctionMapper_contract :
  honours_contract is_CurriedFunctionCall false
    (rule DefaultIfNullCurriedFunctionMapper_).
Proof.
  split; [| |done].
  - intros e t1 t2 Hext.
    unfold rule, attempt_map, DefaultIfNullCurriedFunctionMapper_attempt_map.
    destruct e as [a v|a tn c|a c k|a n ps|a f ps]; simpl; try done.
    assert (accept f t1 = accept f t2) as ->.
    { apply Hext. constructor. by left. }
    destruct (accept f t2) as [inner|]; [|done]. simpl.
    destruct (assert _); [|done]. simpl.
    rewrite (for_each_ext (fun p => accept p t1) (fun p => accept p t2)); [done|].
    intros p Hp. apply Hext. constructor. by right.
  - intros [a v|a tn c|a c k|a n ps|a f ps] t; try done.
    simpl. intros _ [[Hf _]%andb_prop _]%andb_prop Ht.
    unfold rule, attempt_map, DefaultIfNullCurriedFunctionMapper_attempt_map.
    simpl. change (accept f t) with (t f).
    destruct (Ht f) as (f' & -> & Hshape); [constructor; by left|].
    simpl. rewrite (Hshape Hf). simpl.
    destruct (for_each_ok (fun p => accept p t) ps) as [ps' ->].
    + intros p Hp. unfold accept.
      destruct (Ht p) as (p' & -> & _); [|by eexists].
      constructor. by right.
    + simpl. destruct f'; try (by specialize (Hshape Hf)).
      simpl. destruct (_ && _); by eexists.
Qed.

Lemma concat_honours_contract (a b : TranslationMappers.t) :
  chain_honours_contract a -> chain_honours_contract b ->
  chain_honours_contract (TranslationMappers.concat a b).
Proof.
  intros [] []. split; simpl; by apply Forall_app.
Qed.

Lemma discover_chains_honour_contract :
  chain_honours_contract DiscoverTransactionsEntity_custom_mappers
  /\ chain_honours_contract DiscoverEventsEntity_custom_mappers.
Proof.
  split; apply concat_honours_contract; split; simpl;
    repeat (first [apply Forall_nil_2 | apply Forall_cons_2]);
    auto using DefaultNoneColumnMapper_contract, ColumnToLiteral_contract,
      DefaultNoneFunctionMapper_contract, DefaultNoneSubscriptMapper_contract,
      DefaultIfNullFunctionMapper_contract,
      DefaultIfNullCurriedFunctionMapper_contract.
Qed.

(** C1: for every well-formed logical expression tree and every chain of
    mappers that honour the mapper contract (a mapper translates
    sub-expressions of its node only, declines instead of raising, and a
    function mapper returns a function call), the strict translator returns a
    translated tree, the same for every depth bound above the height of the
    tree; and a node that no mapper claims is reconstructed from its
    translated children. *)
Theorem strict_translation_is_total
  (mappers : TranslationMappers.t) (e : Expression)
  (Hchain : chain_honours_contract mappers) (Hwf : well_formed e = true) :
  (exists e' : Expression,
      forall fuel : nat, (height e < fuel)%nat ->
        translate_expression fuel mappers e = Ok e')
  /\ (forall fuel : nat,
         (forall r : Rule, In r (rules_for mappers e) ->
            r e (translate_expression fuel mappers) = Ok None) ->
         translate_expression (S fuel) mappers e
         = translate_structurally e (translate_expression fuel mappers)).
Proof.
  split.
  - destruct (translate_expression_total mappers Hchain (S (height e)) e)
      as (e' & _ & He'); [lia|done|].
    by exists e'.
  - intros fuel Hnone. simpl. by apply apply_rules_none_claims.
Qed.

Lemma strict_translation_is_total_witness :
  let e :=
    CurriedFunctionCall (Some "p95")
      (FunctionCall None "quantile" [Literal None (VInt 95)])
      [ FunctionCall None "coalesce" [Column None None "level"];
        SubscriptableReference None (Column None None "tags")
          (Literal None (VStr "device")) ] in
  exists e' : Expression,
    forall fuel : nat, (height e < fuel)%nat ->
      translate_expression fuel DiscoverTransactionsEntity_custom_mappers e = Ok e'.
Proof.
  intros e.
  apply (strict_translation_is_total DiscoverTransactionsEntity_custom_mappers e).
  - apply discover_chains_honour_contract.
  - reflexivity.
Defined.

(** The contract is needed: under a function rule that answers with a
    literal, a well-formed curried call does not translate. *)
Example function_rule_must_return_a_call :
  let literal_rule : Rule := fun _ _ => Ok (Some NULL) in
  let mappers :=
    {| TranslationMappers.columns := [];
       TranslationMappers.functions := [literal_rule];
       TranslationMappers.curried_functions := [];
       TranslationMappers.subscriptables := [] |} in
  translate_expression 3 mappers
    (CurriedFunctionCall None (FunctionCall None "quantile" []) [])
  = Raise AssertionError.
Proof. reflexivity. Qed.

(** C6: concatenating two mapper chains concatenates the rule sequences of
    each node kind, [a]'s rules before [b]'s, nothing merged or reordered;
    within a sequence the first rule that returns a mapped node wins, so a
    column that a rule of [a] claims is translated by [a]'s rule whatever
    [b] holds; and in the transactions chain, where the [ColumnToLiteral]
    rule for [group_id] precedes the Column-to-NULL mapper whose column set
    holds [group_id] too, [Column{group_id}] translates to the literal 0,
    not to NULL. *)
Theorem chain_concat_first_rule_wins (a b : TranslationMappers.t) :
  (TranslationMappers.columns (TranslationMappers.concat a b)
   = (TranslationMappers.columns a ++ TranslationMappers.columns b)%list
   /\ TranslationMappers.functions (TranslationMappers.concat a b)
      = (TranslationMappers.functions a ++ TranslationMappers.functions b)%list
   /\ TranslationMappers.curried_functions (TranslationMappers.concat a b)
      = (TranslationMappers.curried_functions a
         ++ TranslationMappers.curried_functions b)%list
   /\ TranslationMappers.subscriptables (TranslationMappers.concat a b)
      = (TranslationMappers.subscriptables a
         ++ TranslationMappers.subscriptables b)%list)
  /\ (forall (before after : list Rule) (r : Rule) (e e' : Expression)
        (t : Translator) (d : Result Expression),
         (forall r0 : Rule, In r0 before -> r0 e t = Ok None) ->
         r e t = Ok (Some e') ->
         apply_rules (before ++ r :: after)%list e t d = Ok e')
  /\ (forall (before after : list Rule) (r : Rule) (e e' : Expression)
        (fuel : nat),
         rules_for a e = (before ++ r :: after)%list ->
         (forall r0 : Rule, In r0 before ->
            r0 e (translate_expression fuel (TranslationMappers.concat a b))
            = Ok None) ->
         r e (translate_expression fuel (TranslationMappers.concat a b))
         = Ok (Some e') ->
         translate_expression (S fuel) (TranslationMappers.concat a b) e = Ok e')
  /\ (forall (fuel : nat) (al table : option string),
         translate_expression (S fuel) transaction_translation_mappers
           (Column al table "group_id")
         = Ok (Literal
                 (Some (or_else al (qualified_column "group_id" (default "" table))))
                 (VInt 0))
         /\ translate_expression (S fuel)
              (TranslationMappers.concat transaction_translation_mappers b)
              (Column al table "group_id")
            = Ok (Literal
                    (Some (or_else al
                             (qualified_column "group_id" (default "" table))))
                    (VInt 0))
         /\ attempt_map {| columns := EVENTS_COLUMNS |}
              (Column al table "group_id")
              (translate_expression fuel transaction_translation_mappers)
            = Ok (Some (Literal
                          (Some (or_else al
                                   (qualified_column "group_id"
                                      (default "" table))))
                          VNone))).
Proof.
  split; [done|]. split; [|split].
  - intros. by apply apply_rules_first_wins.
  - intros before after r e e' fuel Hrules Hbefore Hr. simpl.
    assert (rules_for (TranslationMappers.concat a b) e
            = (before ++ r :: (after ++ rules_for b e))%list) as ->.
    { destruct e; simpl in *;
        [by destruct before|by rewrite Hrules, <- app_assoc..]. }
    by apply apply_rules_first_wins.
  - intros fuel al table. by destruct table.
Qed.

Lemma chain_concat_first_rule_wins_witness :
  translate_expression 1
    (TranslationMappers.concat transaction_translation_mappers
       events_translation_mappers)
    (Column (Some "g") None "group_id")
  = Ok (Literal (Some "g") (VInt 0)).
Proof.
  apply (proj1 (proj2 (proj2
           (chain_concat_first_rule_wins transaction_translation_mappers
              events_translation_mappers)))
           [] [rule {| columns := EVENTS_COLUMNS |}]
           (rule {| from_table_name := None; from_col_name := "group_id";
                    to_literal_value := VInt 0 |})).
  - reflexivity.
  - intros r0 [].
  - reflexivity.
Defined.

(** In [DiscoverEntity]'s chain the events rules come first; the
    Column-to-NULL mapper for the transactions columns declines [group_id]
    and the [ColumnToLiteral] rule still answers before the later rules. *)
Lemma DiscoverEntity_group_id
  (ColumnToMapping : option string -> string -> option string -> string -> string -> Rule)
  (SubscriptableMapper : option string -> string -> option string -> string -> Rule)
  (fuel : nat) :
  translate_expression (S fuel)
    (DiscoverEntity_mappers ColumnToMapping SubscriptableMapper)
    (Column None None "group_id")
  = Ok (Literal (Some "group_id") (VInt 0)).
Proof. reflexivity. Qed.

(** ** Storage selection *)

(** C8: the discover storage selector is a function of the query body only,
    and on the literal scenarios it selects: for the condition
    [type = "transaction"], the condition [duration = 0], the selected column
    [trace_id] and the aggregation [max(duration)], the transactions
    storage; for the condition [type != "transaction"], no conditions, the
    selected column [group_id] and the ambiguous selection
    [{group_id, trace_id}], the default (events) storage. A query that
    refers to an events-only name and carries no type condition always gets
    the default storage, and every query gets one of the two storages. *)
Theorem discover_storage_selection :
  format_from (select_storage
    {| conditions := [("type", "=", CStr "transaction")];
       selected_columns := []; aggregations := [] |}) = "test_transactions_local"
  /\ format_from (select_storage
       {| conditions := [("type", "!=", CStr "transaction")];
          selected_columns := []; aggregations := [] |}) = "test_sentry_local"
  /\ format_from (select_storage
       {| conditions := []; selected_columns := []; aggregations := [] |})
     = "test_sentry_local"
  /\ format_from (select_storage
       {| conditions := [("duration", "=", CInt 0)];
          selected_columns := []; aggregations := [] |}) = "test_transactions_local"
  /\ format_from (select_storage
       {| conditions := []; selected_columns := ["group_id"];
          aggregations := [] |}) = "test_sentry_local"
  /\ format_from (select_storage
       {| conditions := []; selected_columns := ["trace_id"];
          aggregations := [] |}) = "test_transactions_local"
  /\ format_from (select_storage
       {| conditions := []; selected_columns := ["group_id"; "trace_id"];
          aggregations := [] |}) = "test_sentry_local"
  /\ format_from (select_storage
       {| conditions := []; selected_columns := [];
          aggregations := [("max", "duration", "max_duration")] |})
     = "test_transactions_local"
  /\ (forall query : QueryBody,
         existsb (is_type_condition "=") (conditions query) = false ->
         existsb (contains EVENTS_COLUMNS) (referenced_names query) = true ->
         select_storage query = EVENTS)
  /\ (forall query : QueryBody,
         select_storage query = EVENTS \/ select_storage query = TRANSACTIONS).
Proof.
  repeat split; try reflexivity.
  - intros query Htype Hevents. unfold select_storage.
    rewrite Htype, Hevents. simpl. rewrite andb_false_r.
    by case_match.
  - intros query. destruct (select_storage query); [by left|by right].
Qed.

Lemma discover_storage_selection_witness :
  select_storage
    {| conditions := [("duration", ">", CInt 100)];
       selected_columns := ["primary_hash"; "trace_id"];
       aggregations := [("uniq", "span_id", "spans")] |} = EVENTS.
Proof.
  apply (proj1 (proj2 (proj2 (proj2 (proj2 (proj2 (proj2 (proj2
           (proj2 discover_storage_selection))))))))); reflexivity.
Defined.

(** C10: [select_storage] returns the materialized-view storage the selector
    was built with, for every query and all request settings; the result
    depends on neither argument, and the raw-table storage, a different
    storage, is never selected. *)
Theorem outcomes_selector_returns_materialized_view
  {TableStorage Query RequestSettings : Type}
  (self : @OutcomesQueryStorageSelector.t TableStorage)
  (query : Query) (request_settings : RequestSettings) :
  OutcomesQueryStorageSelector.select_storage self query request_settings
  = OutcomesQueryStorageSelector.materialized_view self
  /\ (forall (query' : Query) (request_settings' : RequestSettings),
         OutcomesQueryStorageSelector.select_storage self query' request_settings'
         = OutcomesQueryStorageSelector.select_storage self query request_settings)
  /\ (OutcomesQueryStorageSelector.raw_table self
      <> OutcomesQueryStorageSelector.materialized_view self ->
      OutcomesQueryStorageSelector.select_storage self query request_settings
      <> OutcomesQueryStorageSelector.raw_table self).
Proof.
  repeat split. intros Hdistinct Hraw. by apply Hdistinct.
Qed.

Lemma outcomes_selector_returns_materialized_view_witness :
  OutcomesQueryStorageSelector.select_storage storage_selector
    {| conditions := []; selected_columns := ["outcome"]; aggregations := [] |} tt
  <> writable_storage.
Proof.
  apply (outcomes_selector_returns_materialized_view storage_selector).
  discriminate.
Defined.

(** ** The sampling rate processor *)

(** C9 (the code at the failing input): on a data source that does not
    support sampling, under the deprecated-auto mode with the turbo flag on,
    the processor leaves the query with the turbo sample rate, not with a
    cleared sample setting. *)
Theorem sampling_rate_set_on_unsupported_source
  {SamplingMode : Type} `{EqDecision SamplingMode}
  (AUTO_DEPRECATED : SamplingMode) (TURBO_SAMPLE_RATE : Q)
  (query : SamplingRateProcessor.Query)
  (request_settings : SamplingRateProcessor.RequestSettings)
  (Hsource : SamplingRateProcessor.supports_sample
               (SamplingRateProcessor.get_data_source query) = false)
  (Hmode : SamplingRateProcessor.get_sampling_config_mode request_settings
           = AUTO_DEPRECATED)
  (Hturbo : SamplingRateProcessor.get_turbo request_settings = true) :
  SamplingRateProcessor.get_sample
    (SamplingRateProcessor.process_query AUTO_DEPRECATED TURBO_SAMPLE_RATE
       query request_settings)
  = Some TURBO_SAMPLE_RATE.
Proof.
  unfold SamplingRateProcessor.process_query.
  rewrite Hsource, Hturbo. simpl. by rewrite decide_True.
Qed.

Lemma sampling_rate_set_on_unsupported_source_witness :
  SamplingRateProcessor.get_sample
    (SamplingRateProcessor.process_query true (1 # 10)
       {| SamplingRateProcessor.get_data_source :=
            {| SamplingRateProcessor.supports_sample := false |};
          SamplingRateProcessor.get_sample := None |}
       {| SamplingRateProcessor.get_sampling_config_mode := true;
          SamplingRateProcessor.get_turbo := true |})
  = Some (1 # 10)
  /\ Some (1 # 10) <> (None : option Q).
Proof.
  split; [|discriminate].
  by apply (sampling_rate_set_on_unsupported_source true (1 # 10)).
Defined.

(** What the processor does otherwise: under another mode the sample
    setting is the one of the query, cleared when the data source does not
    support sampling; under the deprecated-auto mode a sample rate set on a
    source that supports sampling stays, and the turbo rate is applied only
    when no sample is set and the turbo flag is on. *)
Lemma sampling_rate_other_cases
  {SamplingMode : Type} `{EqDecision SamplingMode}
  (AUTO_DEPRECATED : SamplingMode) (TURBO_SAMPLE_RATE : Q)
  (query : SamplingRateProcessor.Query)
  (request_settings : SamplingRateProcessor.RequestSettings) :
  let after :=
    SamplingRateProcessor.get_sample
      (SamplingRateProcessor.process_query AUTO_DEPRECATED TURBO_SAMPLE_RATE
         query request_settings) in
  let supported :=
    SamplingRateProcessor.supports_sample
      (SamplingRateProcessor.get_data_source query) in
  let mode := SamplingRateProcessor.get_sampling_config_mode request_settings in
  (mode <> AUTO_DEPRECATED ->
   after = if supported then SamplingRateProcessor.get_sample query else None)
  /\ (mode = AUTO_DEPRECATED -> supported = true ->
      SamplingRateProcessor.truthy (SamplingRateProcessor.get_sample query) = true ->
      after = SamplingRateProcessor.get_sample query)
  /\ (mode = AUTO_DEPRECATED ->
      SamplingRateProcessor.get_turbo request_settings = false ->
      after = if supported then SamplingRateProcessor.get_sample query else None)
  /\ (after = Some TURBO_SAMPLE_RATE ->
      after = SamplingRateProcessor.get_sample query
      \/ (mode = AUTO_DEPRECATED
          /\ SamplingRateProcessor.get_turbo request_settings = true
          /\ (supported = false
              \/ SamplingRateProcessor.truthy
                   (SamplingRateProcessor.get_sample query) = false))).
Proof.
  unfold SamplingRateProcessor.process_query.
  destruct query as [[supported] sample], request_settings as [mode turbo].
  simpl. repeat split.
  - intros Hmode. rewrite decide_False by done. by destruct supported.
  - intros -> -> Hsample. rewrite decide_True by done. simpl. by rewrite Hsample.
  - intros -> ->. rewrite decide_True by done.
    destruct supported; simpl; [|done]. by destruct (SamplingRateProcessor.truthy _).
  - destruct (decide (mode = AUTO_DEPRECATED)) as [->|Hmode].
    + destruct supported, turbo; simpl;
        try destruct (SamplingRateProcessor.truthy sample) eqn:Hs; simpl;
        intros Hafter; try (by left); try done; right; auto.
    + destruct supported; simpl; intros Hafter; [by left|done].
Qed.

(** ** Replacement messages *)

Lemma equals_2_spec (version : Json) :
  equals_2 version = true <-> version_2 version.
Proof.
  unfold version_2. destruct version as [|b|n|x|s|items|members]; cbn [equals_2];
    split; try done; try (by intros [?|(? & ? & _)]).
  - intros ->%Z.eqb_eq. by left.
  - intros [[= ->]|(? & ? & _)]; done.
  - intros Hx%Qeq_bool_iff. right. by exists x.
  - intros [?|(x' & [= <-] & Hx)]; [done|]. by apply Qeq_bool_iff.
Qed.

Lemma type_in_spec (type_ : Json) (names : list string) :
  type_in type_ names = true <-> marker names type_.
Proof.
  unfold marker, type_in. destruct type_ as [|b|n|x|s|items|members];
    try (split; [done|by intros (? & ? & _)]).
  rewrite existsb_exists. split.
  - intros (name & Hin & ->%String.eqb_eq). by exists name.
  - intros (name & [= <-] & Hin). exists s. by rewrite String.eqb_refl.
Qed.

(** C5: for every replacement message [[version, type, payload]],
    [process_message] raises a malformed-message error exactly when the
    version differs from 2 or, for version 2, the type is not one of the
    eight recognized start and end markers; the four [start_*] types return
    no unit of work, and the four [end_*] types are handed to the replacement
    processor of the dataset, whose outcome is the outcome of the call. *)
Theorem process_message_classifies (version type_ payload : Json) :
  let start_markers :=
    ["start_delete_groups"; "start_merge"; "start_unmerge"; "start_delete_tag"] in
  let end_markers :=
    ["end_delete_groups"; "end_merge"; "end_unmerge"; "end_delete_tag"] in
  let markers := (start_markers ++ end_markers)%list in
  (~ version_2 version ->
   forall process_replacement,
     process_message process_replacement [version; type_; payload]
     = Raise (InvalidMessageVersion [version; type_; payload]))
  /\ (version_2 version -> marker start_markers type_ ->
      forall process_replacement,
        process_message process_replacement [version; type_; payload] = Ok None)
  /\ (version_2 version -> marker end_markers type_ ->
      forall process_replacement,
        process_message process_replacement [version; type_; payload]
        = process_replacement type_ payload)
  /\ (version_2 version -> ~ marker markers type_ ->
      forall process_replacement,
        process_message process_replacement [version; type_; payload]
        = Raise (InvalidMessageType type_))
  /\ ((forall process_replacement,
          exists e : Exception,
            malformed_message e
            /\ process_message process_replacement [version; type_; payload]
               = Raise e)
      <-> ~ version_2 version \/ ~ marker markers type_).
Proof.
  intros start_markers end_markers markers.
  pose proof (equals_2_spec version) as Hversion.
  pose proof (type_in_spec type_ start_types) as Hstart.
  pose proof (type_in_spec type_ end_types) as Hend.
  assert (Hstart_markers : marker start_types type_ <-> marker start_markers type_)
    by done.
  assert (Hend_markers : marker end_types type_ <-> marker end_markers type_).
  { unfold marker, end_types, end_markers.
    split; intros (s & -> & Hs); exists s; (split; [done|]);
      cbn [In] in *; tauto. }
  assert (Hmarkers : marker markers type_
                     <-> marker start_markers type_ \/ marker end_markers type_).
  { unfold marker, markers. split.
    - intros (s & -> & [Hs|Hs]%in_app_or); [left|right]; by exists s.
    - intros [(s & -> & Hs)|(s & -> & Hs)]; exists s; (split; [done|]);
        apply in_or_app; auto. }
  assert (Hdisjoint : marker start_markers type_ -> marker end_markers type_
                      -> False).
  { intros (s & -> & Hs) (s' & [= <-] & Hs'). cbn [In] in Hs, Hs'.
    destruct Hs as [<-|[<-|[<-|[<-|[]]]]];
      destruct Hs' as [|[|[|[|[]]]]]; discriminate. }
  rewrite Hstart_markers in Hstart. rewrite Hend_markers in Hend.
  assert (Hrun : forall process_replacement,
            process_message process_replacement [version; type_; payload]
            = if equals_2 version then
                if type_in type_ start_types then Ok None
                else if type_in type_ end_types
                     then process_replacement type_ payload
                     else Raise (InvalidMessageType type_)
              else Raise (InvalidMessageVersion [version; type_; payload]))
    by done.
  split; [|split; [|split; [|split]]].
  - intros Hv pr. rewrite Hrun.
    destruct (equals_2 version); [|done]. exfalso. by apply Hv, Hversion.
  - intros Hv Hs pr. rewrite Hrun.
    by rewrite (proj2 Hversion Hv), (proj2 Hstart Hs).
  - intros Hv He pr. rewrite Hrun.
    rewrite (proj2 Hversion Hv), (proj2 Hend He).
    destruct (type_in type_ start_types); [|done].
    exfalso. apply Hdisjoint; [by apply Hstart|done].
  - intros Hv Hnone pr. rewrite Hrun. rewrite (proj2 Hversion Hv).
    destruct (type_in type_ start_types).
    { exfalso. apply Hnone, Hmarkers. left. by apply Hstart. }
    destruct (type_in type_ end_types); [|done].
    exfalso. apply Hnone, Hmarkers. right. by apply Hend.
  - split.
    + intros Hall.
      destruct (Hall (fun _ _ => Ok None)) as (e & He & Hraise).
      rewrite Hrun in Hraise.
      destruct (equals_2 version).
      * right. rewrite Hmarkers. intros [Hs|He'].
        -- by rewrite (proj2 Hstart Hs) in Hraise.
        -- rewrite (proj2 Hend He') in Hraise.
           by destruct (type_in type_ start_types).
      * left. intros Hv. by apply Hversion in Hv.
    + intros Hbad pr. rewrite Hrun.
      destruct (equals_2 version); [|by eexists (InvalidMessageVersion _)].
      destruct Hbad as [Hv|Hnone]; [exfalso; by apply Hv, Hversion|].
      destruct (type_in type_ start_types).
      { exfalso. apply Hnone, Hmarkers. left. by apply Hstart. }
      destruct (type_in type_ end_types); [|by eexists (InvalidMessageType _)].
      exfalso. apply Hnone, Hmarkers. right. by apply Hend.
Qed.

Lemma process_message_classifies_witness :
  process_message (fun _ _ => Raise TypeError)
    [JInt 2; JStr "start_merge"; JObj []] = Ok None
  /\ process_message (fun _ _ => Ok (Some example_merged))
       [JFloat 2; JStr "end_merge"; JObj []] = Ok (Some example_merged)
  /\ process_message (fun _ _ => Raise TypeError)
       [JInt 2; JStr "end_delete_groups"; JObj []] = Raise TypeError
  /\ process_message (fun _ _ => Ok None)
       [JInt 1; JStr "end_merge"; JObj []]
     = Raise (InvalidMessageVersion [JInt 1; JStr "end_merge"; JObj []])
  /\ process_message (fun _ _ => Ok None)
       [JInt 2; JStr "merge"; JObj []]
     = Raise (InvalidMessageType (JStr "merge")).
Proof.
  split; [|split; [|split; [|split]]].
  - apply (proj1 (proj2 (process_message_classifies
                           (JInt 2) (JStr "start_merge") (JObj []))));
      [by left|].
    exists "start_merge". split; [reflexivity|]. simpl. tauto.
  - apply (proj1 (proj2 (proj2 (process_message_classifies
                                  (JFloat 2) (JStr "end_merge") (JObj []))))
             ltac:(right; by exists 2%Q)
             ltac:(exists "end_merge"; split; [reflexivity|simpl; tauto])
             (fun _ _ => Ok (Some example_merged))).
  - apply (proj1 (proj2 (proj2 (process_message_classifies
                                  (JInt 2) (JStr "end_delete_groups") (JObj []))))
             ltac:(by left)
             ltac:(exists "end_delete_groups"; split; [reflexivity|simpl; tauto])
             (fun _ _ => Raise TypeError)).
  - apply (proj1 (process_message_classifies
                    (JInt 1) (JStr "end_merge") (JObj []))).
    by intros [?|(x & ? & _)].
  - apply (proj1 (proj2 (proj2 (proj2 (process_message_classifies
                                         (JInt 2) (JStr "merge") (JObj [])))))).
    + by left.
    + intros (s & [= <-] & Hs). simpl in Hs. intuition discriminate.
Defined.

(** ** The consistency flags *)

Lemma Qlt_bool_iff (a b : Q) : Qlt_bool a b = true <-> (a < b)%Q.
Proof.
  unfold Qlt_bool. rewrite negb_true_iff, <- not_true_iff_false, Qle_bool_iff.
  split; [apply Qnot_le_lt|apply Qlt_not_le].
Qed.

Lemma in_range_stale (x score : Q) :
  in_range NegInf (Finite x) score = false <-> (x < score)%Q.
Proof.
  unfold in_range. simpl. rewrite <- not_true_iff_false, Qle_bool_iff.
  split; [apply Qnot_le_lt|apply Qlt_not_le].
Qed.

Lemma in_range_recent (x score : Q) :
  in_range (Finite x) PosInf score = true <-> (x <= score)%Q.
Proof. unfold in_range. simpl. by rewrite andb_true_r, Qle_bool_iff. Qed.

Lemma run_prune (ttl : Z) (key : string) (now : Q) (r : Redis) :
  exists n : Z,
    run (ZREMRANGEBYSCORE key NegInf (Finite (now - inject_Z ttl))) now r
    = (Integer n, prune ttl key now r).
Proof.
  unfold prune. simpl. destruct (live_zset key now r). by eexists.
Qed.

Lemma prune_other_key (ttl : Z) (key key' : string) (now : Q) (r : Redis) :
  key <> key' -> zsets (prune ttl key now r) !! key' = zsets r !! key'.
Proof.
  intros Hne. unfold prune. simpl. destruct (live_zset key now r). simpl.
  case_decide; [by rewrite lookup_delete_ne|by rewrite lookup_insert_ne].
Qed.

Lemma prune_same_key (ttl : Z) (key : string) (now : Q) (r : Redis) :
  zsets (prune ttl key now r) !! key
  = let kept :=
      filter (fun kv => in_range NegInf (Finite (now - inject_Z ttl)) (snd kv) = false)
        (fst (live_zset key now r)) in
    if decide (kept = ∅) then None else Some (kept, snd (live_zset key now r)).
Proof.
  unfold prune. simpl. destruct (live_zset key now r) as [members expiry]. simpl.
  case_decide; [by rewrite lookup_delete_eq|by rewrite lookup_insert_eq].
Qed.

Lemma live_zset_alive (key : string) (now : Q) (r : Redis) :
  alive (snd (live_zset key now r)) now = true.
Proof.
  unfold live_zset. destruct (zsets r !! key) as [[members expiry]|]; [|done].
  by destruct (alive expiry now) eqn:Halive.
Qed.

Lemma live_zset_lookup (key : string) (now : Q) (r : Redis) (g : Z) (score : Q) :
  fst (live_zset key now r) !! g = Some score <->
  exists (members : gmap Z Q) (expiry : option Q),
    zsets r !! key = Some (members, expiry)
    /\ alive expiry now = true
    /\ members !! g = Some score.
Proof.
  unfold live_zset. destruct (zsets r !! key) as [[members expiry]|].
  - destruct (alive expiry now) eqn:Halive; simpl.
    + split; [by exists members, expiry|].
      by intros (? & ? & [= <- <-] & _ & ?).
    + rewrite lookup_empty. split; [done|].
      intros (? & ? & [= <- <-] & ? & _). congruence.
  - simpl. rewrite lookup_empty. split; [done|]. by intros (? & ? & ? & _).
Qed.

(** Trimming stale members does not change which ids are excluded. *)
Lemma excluded_at_prune (ttl : Z) (key key' : string) (now : Q) (r : Redis) (g : Z) :
  excluded_at ttl (prune ttl key now r) now key' g <-> excluded_at ttl r now key' g.
Proof.
  unfold excluded_at. destruct (decide (key = key')) as [<-|Hne];
    [|by rewrite prune_other_key].
  rewrite prune_same_key. simpl. split.
  - intros (members & expiry & score & Hlookup & Halive & Hg & Hscore).
    case_decide as Hkept; [done|]. injection Hlookup as <- <-.
    apply map_lookup_filter_Some in Hg as [Hg _].
    apply live_zset_lookup in Hg as (members & expiry & ? & ? & ?).
    by exists members, expiry, score.
  - intros (members & expiry & score & Hlookup & Halive & Hg & Hscore).
    assert (Hlive : fst (live_zset key now r) !! g = Some score).
    { apply live_zset_lookup. by exists members, expiry. }
    set (kept := filter _ _).
    assert (Hkept : kept !! g = Some score).
    { apply map_lookup_filter_Some. split; [done|]. by apply in_range_stale. }
    rewrite decide_False by (intros Hempty; by rewrite Hempty in Hkept).
    exists kept, (snd (live_zset key now r)), score.
    split; [done|]. split; [apply live_zset_alive|done].
Qed.

(** After the trim, the members the range query lists are the excluded
    ids. *)
Lemma range_after_prune (ttl : Z) (key : string) (now : Q) (r : Redis) :
  exists l : list Z,
    run (ZREVRANGEBYSCORE key PosInf (Finite (now - inject_Z ttl))) now
      (prune ttl key now r)
    = (Members l, prune ttl key now r)
    /\ forall g : Z, g ∈ l <-> excluded_at ttl r now key g.
Proof.
  simpl. destruct (live_zset key now (prune ttl key now r)) as [members expiry] eqn:Hlive.
  eexists. split; [done|]. intros g.
  rewrite <- (excluded_at_prune ttl key key now r g).
  rewrite list_elem_of_fmap. split.
  - intros ([g' score] & -> & Hin). simpl.
    apply elem_of_map_to_list, map_lookup_filter_Some in Hin as [Hg Hrecent].
    assert (Hg' : fst (live_zset key now (prune ttl key now r)) !! g' = Some score)
      by by rewrite Hlive.
    apply live_zset_lookup in Hg' as (members' & expiry' & Hlookup & Halive & Hg').
    exists members', expiry', score. repeat split; try done.
    rewrite prune_same_key in Hlookup. simpl in Hlookup.
    case_decide; [done|]. injection Hlookup as <- <-.
    apply map_lookup_filter_Some in Hg' as [_ Hstale]. by apply in_range_stale.
  - intros (members' & expiry' & score & Hlookup & Halive & Hg & Hscore).
    exists (g, score). split; [done|].
    apply elem_of_map_to_list, map_lookup_filter_Some. split.
    + change members with (fst (members, expiry)). rewrite <- Hlive.
      apply live_zset_lookup. by exists members', expiry'.
    + apply in_range_recent. simpl. by apply Qlt_le_weak.
Qed.

Lemma execute_app (p1 p2 : list Command) (now : Q) (r : Redis) :
  execute (p1 ++ p2) now r
  = let '(replies1, r1) := execute p1 now r in
    let '(replies2, r2) := execute p2 now r1 in
    ((replies1 ++ replies2)%list, r2).
Proof.
  revert r. induction p1 as [|c p1 IH]; intros r; simpl.
  - by destruct (execute p2 now r).
  - destruct (run c now r) as [reply r1]. rewrite IH.
    destruct (execute p1 now r1) as [replies1 r2].
    by destruct (execute p2 now r2).
Qed.

Lemma execute_gets (keys : list string) (now : Q) (r : Redis) :
  execute (map GET keys) now r
  = (map (fun key => fst (run (GET key) now r)) keys, r).
Proof.
  induction keys as [|key keys IH]; simpl; [done|].
  destruct (strings r !! key) as [[value expiry]|]; by rewrite IH.
Qed.

Lemma execute_exclude_groups (ttl : Z) (now : Q) (ids : list Z) (r : Redis) :
  exists (pairs : list (Z * list Z)) (r' : Redis),
    execute
      (flat_map (fun key =>
         [ ZREMRANGEBYSCORE key NegInf (Finite (now - inject_Z ttl));
           ZREVRANGEBYSCORE key PosInf (Finite (now - inject_Z ttl)) ])
         (map get_project_exclude_groups_key ids)) now r
    = (flat_map (fun nl => [Integer (fst nl); Members (snd nl)]) pairs, r')
    /\ Forall2 (fun p nl => forall g : Z, g ∈ snd nl <-> excluded ttl r now p g)
         ids pairs.
Proof.
  revert r. induction ids as [|p ids IH]; intros r.
  - exists [], r. by split.
  - cbn [map flat_map app execute].
    destruct (run_prune ttl (get_project_exclude_groups_key p) now r) as [n ->].
    destruct (range_after_prune ttl (get_project_exclude_groups_key p) now r)
      as (l & -> & Hl).
    destruct (IH (prune ttl (get_project_exclude_groups_key p) now r))
      as (pairs & r' & -> & Hpairs).
    exists ((n, l) :: pairs), r'. split; [done|].
    constructor; [done|].
    eapply Forall2_impl; [exact Hpairs|].
    intros q nl Hnl g. etransitivity; [apply Hnl|apply excluded_at_prune].
Qed.

Lemma every_second_replies (x : Reply) (pairs : list (Z * list Z)) :
  every_second
    (x :: flat_map (fun nl => [Integer (fst nl); Members (snd nl)]) pairs)
  = x :: map (fun nl => Members (snd nl)) pairs.
Proof.
  revert x. induction pairs as [|[n l] pairs IH]; intros x; [done|].
  change (x :: every_second
            (Members l
             :: flat_map (fun nl => [Integer (fst nl); Members (snd nl)]) pairs)
          = x :: Members l :: map (fun nl => Members (snd nl)) pairs).
  by rewrite IH.
Qed.

Lemma sum_lists_members (pairs : list (Z * list Z)) :
  sum_lists (map (fun nl => Members (snd nl)) pairs)
  = Ok (concat (map snd pairs)).
Proof.
  induction pairs as [|[n l] pairs IH]; [done|].
  cbn [map sum_lists snd concat]. by rewrite IH.
Qed.

Lemma sorted_set_spec (l : list Z) :
  StronglySorted Z.lt (sorted_set l) /\ forall g : Z, g ∈ sorted_set l <-> g ∈ l.
Proof.
  unfold sorted_set. split.
  - assert (Hnodup : NoDup (merge_sort Z.le (remove_dups l))).
    { rewrite merge_sort_Permutation. apply NoDup_remove_dups. }
    assert (Hsorted : StronglySorted Z.le (merge_sort Z.le (remove_dups l)))
      by apply (StronglySorted_merge_sort Z.le).
    induction Hsorted as [|x sorted _ IH Hle]; [constructor|].
    apply NoDup_cons in Hnodup as [Hx Hnodup].
    constructor; [by apply IH|].
    apply List.Forall_forall. intros y Hy.
    pose proof (proj1 (List.Forall_forall _ _) Hle y Hy).
    assert (x <> y) by (intros ->; by apply Hx, list_elem_of_In).
    lia.
  - intros g. by rewrite merge_sort_Permutation, elem_of_remove_dups.
Qed.

Lemma needs_final_any (now : Q) (ids : list Z) (r : Redis) :
  existsb reply_truthy
    (map (fun key => fst (run (GET key) now r))
       (map get_project_needs_final_key ids)) = true
  <-> exists p : Z, p ∈ ids /\ needs_final_flag r now p.
Proof.
  rewrite existsb_exists. setoid_rewrite in_map_iff. split.
  - intros (reply & (key & <- & Hkey) & Htruthy).
    apply in_map_iff in Hkey as (p & <- & Hp).
    exists p. split; [by apply list_elem_of_In|]. unfold needs_final_flag.
    simpl in Htruthy.
    destruct (strings r !! get_project_needs_final_key p) as [[value expiry]|];
      [|done].
    simpl in Htruthy. destruct (alive expiry now) eqn:Halive; [|done].
    exists value, expiry. repeat split; try done.
    intros ->. by simpl in Htruthy.
  - intros (p & Hp & value & expiry & Hlookup & Halive & Hvalue).
    exists (Bulk (Some value)). split.
    + exists (get_project_needs_final_key p). split.
      * simpl. by rewrite Hlookup, Halive.
      * apply in_map_iff. exists p. split; [done|]. by apply list_elem_of_In.
    + simpl. apply negb_true_iff. by apply String.eqb_neq.
Qed.

(** The pair the flags query returns, in terms of the store. *)
Lemma get_projects_query_flags_spec (ttl : Z) (project_ids : list Z) (now : Q)
  (r : Redis) :
  exists (needs_final : bool) (exclude_groups : list Z),
    fst (get_projects_query_flags ttl project_ids now r)
    = Ok (needs_final, exclude_groups)
    /\ (needs_final = true <->
        exists p : Z, p ∈ project_ids /\ needs_final_flag r now p)
    /\ StronglySorted Z.lt exclude_groups
    /\ (forall g : Z,
           g ∈ exclude_groups <->
           exists p : Z, p ∈ project_ids /\ excluded ttl r now p g).
Proof.
  unfold get_projects_query_flags.
  set (ids := remove_dups project_ids).
  rewrite execute_app, execute_gets.
  destruct (execute_exclude_groups ttl now ids r) as (pairs & r' & -> & Hpairs).
  cbn [fst snd].
  set (gets := map _ (map get_project_needs_final_key ids)).
  assert (Hlen : length gets = length ids)
    by (unfold gets; by rewrite !length_map).
  rewrite take_app_length' by done.
  rewrite <- Hlen, drop_app_add.
  assert (every_second
            (drop 1 (flat_map (fun nl => [Integer (fst nl); Members (snd nl)]) pairs))
          = map (fun nl => Members (snd nl)) pairs) as ->.
  { destruct pairs as [|[n l] pairs]; [done|].
    cbn [flat_map app drop fst snd]. by rewrite every_second_replies. }
  rewrite sum_lists_members. cbn [mbind Result_bind fst].
  eexists _, _. split; [done|].
  destruct (sorted_set_spec (concat (map snd pairs))) as [Hsorted Hmem].
  split; [|split; [done|]].
  - unfold gets. rewrite needs_final_any. unfold ids.
    by setoid_rewrite elem_of_remove_dups.
  - intros g. rewrite Hmem, list_elem_of_In, in_concat. split.
    + intros (l & Hl & Hg%list_elem_of_In).
      apply list_elem_of_In, list_elem_of_fmap in Hl as ([n l'] & -> & Hnl).
      destruct (proj1 (list_elem_of_lookup _ _) Hnl) as [i Hi].
      destruct (Forall2_lookup_r _ _ _ _ _ Hpairs Hi) as (p & Hp & Hiff).
      exists p. split; [|by apply Hiff].
      apply elem_of_remove_dups. by eapply list_elem_of_lookup_2.
    + intros (p & Hp & Hg).
      apply elem_of_remove_dups in Hp.
      destruct (proj1 (list_elem_of_lookup _ _) Hp) as [i Hi].
      destruct (Forall2_lookup_l _ _ _ _ _ Hpairs Hi) as (nl & Hnl & Hiff).
      exists (snd nl). split; [|by apply list_elem_of_In, Hiff].
      apply list_elem_of_In, list_elem_of_fmap. exists nl. split; [done|].
      by eapply list_elem_of_lookup_2.
Qed.

Lemma zadd_lookup (members : gmap Z Q) (group_ids : list Z) (now : Q) (g : Z) :
  foldl (fun ms '(m, score) => <[m := score]> ms) members
    (map (fun group_id => (group_id, now)) group_ids) !! g
  = if decide (g ∈ group_ids) then Some now else members !! g.
Proof.
  revert members. induction group_ids as [|g' group_ids IH]; intros members.
  - cbn [map foldl]. by rewrite decide_False by apply not_elem_of_nil.
  - cbn [map foldl]. rewrite IH.
    destruct (decide (g ∈ group_ids)) as [Hin|Hout].
    + by rewrite decide_True by by right.
    + destruct (decide (g = g')) as [->|Hne].
      * rewrite decide_True by by left. by rewrite lookup_insert_eq.
      * rewrite decide_False by (by intros [?|?]%elem_of_cons).
        by rewrite lookup_insert_ne.
Qed.

Lemma run_zadd (key : string) (mapping : list (Z * Q)) (now : Q) (r : Redis) :
  zsets (snd (run (ZADD key mapping) now r))
  = <[key := (foldl (fun ms '(m, score) => <[m := score]> ms)
                (fst (live_zset key now r)) mapping,
              snd (live_zset key now r))]> (zsets r)
  /\ strings (snd (run (ZADD key mapping) now r)) = strings r.
Proof. cbn [run]. by destruct (live_zset key now r). Qed.

Lemma run_zremrangebyscore (key : string) (min max : Bound) (now : Q) (r : Redis) :
  zsets (snd (run (ZREMRANGEBYSCORE key min max) now r)) !! key
  = (let kept :=
       filter (fun kv => in_range min max (snd kv) = false)
         (fst (live_zset key now r)) in
     if decide (kept = ∅) then None else Some (kept, snd (live_zset key now r)))
  /\ strings (snd (run (ZREMRANGEBYSCORE key min max) now r)) = strings r.
Proof.
  cbn [run]. destruct (live_zset key now r) as [members expiry]. cbn [fst snd].
  split; [|done]. cbn [zsets].
  case_decide; [by rewrite lookup_delete_eq|by rewrite lookup_insert_eq].
Qed.

Lemma run_expire (key : string) (seconds : Z) (now : Q) (r : Redis) :
  zsets (snd (run (EXPIRE key seconds) now r)) !! key
  = match zsets r !! key with
    | Some (members, expiry) =>
        if alive expiry now then
          if seconds <=? 0 then None
          else Some (members, Some (now + inject_Z seconds)%Q)
        else Some (members, expiry)
    | None => None
    end
  /\ strings (snd (run (EXPIRE key seconds) now r)) = strings r.
Proof.
  cbn [run]. destruct (zsets r !! key) as [[members expiry]|] eqn:Hlookup;
    [|done].
  destruct (alive expiry now); [|done].
  cbn [snd zsets strings]. split; [|done].
  destruct (seconds <=? 0); [by rewrite lookup_delete_eq|by rewrite lookup_insert_eq].
Qed.

(** The sorted set of a project after its excluded ids are recorded. *)
Lemma set_project_exclude_groups_zset (ttl project_id : Z) (group_ids : list Z)
  (now : Q) (r : Redis) :
  let key := get_project_exclude_groups_key project_id in
  let added :=
    foldl (fun ms '(m, score) => <[m := score]> ms) (fst (live_zset key now r))
      (map (fun group_id => (group_id, now)) group_ids) in
  let kept :=
    filter (fun kv =>
              in_range (Finite (-1)) (Finite (now - inject_Z ttl)) (snd kv) = false)
      added in
  zsets (set_project_exclude_groups ttl project_id group_ids now r) !! key
  = (if decide (kept = ∅) then None
     else if ttl <=? 0 then None
          else Some (kept, Some (now + inject_Z ttl)%Q))
  /\ strings (set_project_exclude_groups ttl project_id group_ids now r)
     = strings r.
Proof.
  intros key added kept. unfold set_project_exclude_groups. fold key.
  set (c1 := ZADD key _). set (c2 := ZREMRANGEBYSCORE key _ _).
  set (c3 := EXPIRE key _).
  assert (snd (execute [c1; c2; c3] now r)
          = snd (run c3 now (snd (run c2 now (snd (run c1 now r)))))) as ->.
  { cbn [execute]. destruct (run c1 now r) as [? r1]. cbn [snd].
    destruct (run c2 now r1) as [? r2]. cbn [snd].
    by destruct (run c3 now r2). }
  destruct (run_zadd key (map (fun group_id => (group_id, now)) group_ids) now r)
    as [Hz1 Hs1].
  fold c1 in Hz1, Hs1. fold added in Hz1.
  set (r1 := snd (run c1 now r)) in *.
  assert (Hlive1 : live_zset key now r1 = (added, snd (live_zset key now r))).
  { unfold live_zset at 1. rewrite Hz1, lookup_insert_eq.
    by rewrite live_zset_alive. }
  destruct (run_zremrangebyscore key (Finite (-1))
              (Finite (now - inject_Z ttl)) now r1) as [Hz2 Hs2].
  fold c2 in Hz2, Hs2. rewrite Hlive1 in Hz2. cbn [fst snd] in Hz2.
  fold kept in Hz2. cbn zeta in Hz2.
  set (r2 := snd (run c2 now r1)) in *.
  destruct (run_expire key ttl now r2) as [Hz3 Hs3].
  fold c3 in Hz3, Hs3. rewrite Hz3, Hz2, Hs3, Hs2, Hs1. split; [|done].
  case_decide; [done|]. by rewrite live_zset_alive.
Qed.

Lemma inject_Z_pos (z : Z) : (0 < inject_Z z)%Q -> 0 < z.
Proof. unfold Qlt. simpl. lia. Qed.

(** Within the retention window the recorded ids, and only they, are
    excluded for a project that had no excluded ids before. *)
Lemma excluded_within_window (ttl project_id : Z) (group_ids : list Z)
  (t0 now : Q) (r : Redis) (g : Z) :
  zsets r !! get_project_exclude_groups_key project_id = None ->
  (t0 <= now)%Q -> (now < t0 + inject_Z ttl)%Q ->
  excluded ttl (set_project_exclude_groups ttl project_id group_ids t0 r) now
    project_id g
  <-> g ∈ group_ids.
Proof.
  intros Hfresh Hle Hlt.
  assert (Httl : 0 < ttl) by (apply inject_Z_pos; lra).
  destruct (set_project_exclude_groups_zset ttl project_id group_ids t0 r)
    as [Hzset _].
  cbn zeta in Hzset. unfold excluded, excluded_at. rewrite Hzset.
  unfold live_zset. rewrite Hfresh. cbn [fst].
  set (added := foldl _ _ _). set (kept := filter _ added).
  assert (Hkept : forall g' score,
            kept !! g' = Some score <-> g' ∈ group_ids /\ score = t0).
  { intros g' score. unfold kept. rewrite map_lookup_filter_Some.
    unfold added. rewrite zadd_lookup, lookup_empty. cbn [snd].
    destruct (decide (g' ∈ group_ids)); split.
    - by intros [[= <-] _].
    - intros [_ ->]. split; [done|].
      unfold in_range. cbn [bound_le_score score_le_bound].
      apply andb_false_iff. right.
      rewrite <- not_true_iff_false, Qle_bool_iff. lra.
    - by intros [? _].
    - by intros [? _]. }
  rewrite (proj2 (Z.leb_gt _ _)) by lia. split.
  - intros (members & expiry & score & Hlookup & _ & Hg & _).
    case_decide; [done|]. injection Hlookup as <- <-.
    by apply Hkept in Hg as [? _].
  - intros Hg.
    assert (Hin : kept !! g = Some t0) by by apply Hkept.
    rewrite decide_False by (intros Hempty; by rewrite Hempty in Hin).
    exists kept, (Some (t0 + inject_Z ttl)%Q), t0.
    repeat split; try done.
    + by apply Qlt_bool_iff.
    + lra.
Qed.

(** Within the retention window every recorded id is excluded, whatever
    the store held before. *)
Lemma excluded_once_recorded (ttl project_id : Z) (group_ids : list Z)
  (t0 now : Q) (r : Redis) (g : Z) :
  (t0 <= now)%Q -> (now < t0 + inject_Z ttl)%Q -> g ∈ group_ids ->
  excluded ttl (set_project_exclude_groups ttl project_id group_ids t0 r) now
    project_id g.
Proof.
  intros Hle Hlt Hg.
  assert (Httl : 0 < ttl) by (apply inject_Z_pos; lra).
  destruct (set_project_exclude_groups_zset ttl project_id group_ids t0 r)
    as [Hzset _].
  cbn zeta in Hzset. unfold excluded, excluded_at. rewrite Hzset.
  set (added := foldl _ _ _). set (kept := filter _ added).
  assert (Hin : kept !! g = Some t0).
  { unfold kept. rewrite map_lookup_filter_Some. unfold added.
    rewrite zadd_lookup, decide_True by done. split; [done|]. cbn [snd].
    unfold in_range. cbn [bound_le_score score_le_bound].
    apply andb_false_iff. right.
    rewrite <- not_true_iff_false, Qle_bool_iff. lra. }
  rewrite decide_False by (intros Hempty; by rewrite Hempty in Hin).
  rewrite (proj2 (Z.leb_gt _ _)) by lia.
  exists kept, (Some (t0 + inject_Z ttl)%Q), t0.
  split; [done|]. split; [by apply Qlt_bool_iff|]. split; [done|lra].
Qed.

(** Once the retention window has elapsed nothing recorded is excluded. *)
Lemma excluded_after_window (ttl project_id : Z) (group_ids : list Z)
  (t0 now : Q) (r : Redis) (g : Z) :
  (t0 + inject_Z ttl <= now)%Q ->
  ~ excluded ttl (set_project_exclude_groups ttl project_id group_ids t0 r) now
      project_id g.
Proof.
  intros Hle.
  destruct (set_project_exclude_groups_zset ttl project_id group_ids t0 r)
    as [Hzset _].
  cbn zeta in Hzset. unfold excluded, excluded_at. rewrite Hzset.
  intros (members & expiry & score & Hlookup & Halive & _).
  case_decide; [done|]. destruct (ttl <=? 0); [done|].
  injection Hlookup as <- <-. apply Qlt_bool_iff in Halive. lra.
Qed.

Lemma StronglySorted_lt_unique (l1 l2 : list Z) :
  StronglySorted Z.lt l1 -> StronglySorted Z.lt l2 ->
  (forall g : Z, g ∈ l1 <-> g ∈ l2) -> l1 = l2.
Proof.
  intros Hl1 Hl2 Hsame.
  assert (Hnodup : forall l, StronglySorted Z.lt l -> NoDup l).
  { intros l Hl. induction Hl as [|x l _ IH Hx]; constructor; [|done].
    intros Hin. apply list_elem_of_In in Hin.
    pose proof (proj1 (List.Forall_forall _ _) Hx x Hin). lia. }
  apply (StronglySorted_unique_strong Z.lt); try done.
  - intros. lia.
  - apply NoDup_Permutation; auto.
Qed.

Lemma needs_final_flag_after_set (ttl project_id : Z) (t0 now : Q) (r : Redis) :
  needs_final_flag (set_project_needs_final ttl project_id t0 r) now project_id
  <-> (now < t0 + inject_Z ttl)%Q.
Proof.
  unfold needs_final_flag, set_project_needs_final. cbn [run snd strings].
  rewrite lookup_insert_eq. split.
  - intros (value & expiry & [= <- <-] & Halive & _). by apply Qlt_bool_iff.
  - intros Hlt. exists "True", (Some (t0 + inject_Z ttl)%Q).
    repeat split; [by apply Qlt_bool_iff|done].
Qed.

(** C3: for every collection of project ids, the flags query returns
    [needs_final] true exactly when one of the queried projects has an
    unexpired needs-final flag, and as excluded ids the strictly ascending
    (sorted, without duplicates) list of the ids that are excluded, not
    expired, for one of the queried projects. In particular, for a project
    without earlier flags, recording the excluded ids [1, 2] and querying
    within the retention window returns the excluded ids [1, 2]; once the
    window has elapsed the same query returns no excluded id and
    [needs_final] false; and a needs-final flag set at [t0] is there until
    the window has elapsed and gone afterwards. *)
Theorem query_flags_or_and_union (ttl : Z) (now : Q) :
  (forall (project_ids : list Z) (r : Redis),
      exists (needs_final : bool) (exclude_groups : list Z),
        fst (get_projects_query_flags ttl project_ids now r)
        = Ok (needs_final, exclude_groups)
        /\ (needs_final = true <->
            exists p : Z, p ∈ project_ids /\ needs_final_flag r now p)
        /\ StronglySorted Z.lt exclude_groups
        /\ (forall g : Z,
               g ∈ exclude_groups <->
               exists p : Z, p ∈ project_ids /\ excluded ttl r now p g))
  /\ (forall (p : Z) (t0 : Q) (r : Redis),
         zsets r !! get_project_exclude_groups_key p = None ->
         strings r !! get_project_needs_final_key p = None ->
         ((t0 <= now)%Q -> (now < t0 + inject_Z ttl)%Q ->
          fst (get_projects_query_flags ttl [p] now
                 (set_project_exclude_groups ttl p [1; 2] t0 r))
          = Ok (false, [1; 2]))
         /\ ((t0 + inject_Z ttl <= now)%Q ->
             fst (get_projects_query_flags ttl [p] now
                    (set_project_exclude_groups ttl p [1; 2] t0 r))
             = Ok (false, [])))
  /\ (forall (p : Z) (t0 : Q) (r : Redis),
         needs_final_flag (set_project_needs_final ttl p t0 r) now p
         <-> (now < t0 + inject_Z ttl)%Q).
Proof.
  split; [|split].
  - intros project_ids r. apply get_projects_query_flags_spec.
  - intros p t0 r Hzset Hstring.
    set (r1 := set_project_exclude_groups ttl p [1; 2] t0 r).
    destruct (get_projects_query_flags_spec ttl [p] now r1)
      as (needs_final & exclude_groups & -> & Hflag & Hsorted & Hmem).
    assert (needs_final = false) as ->.
    { apply not_true_iff_false. rewrite Hflag.
      intros (p' & ->%list_elem_of_singleton & value & expiry & Hlookup & _).
      destruct (set_project_exclude_groups_zset ttl p [1; 2] t0 r) as [_ Hs].
      unfold r1 in Hlookup. by rewrite Hs, Hstring in Hlookup. }
    split.
    + intros Hle Hlt. do 2 f_equal.
      apply StronglySorted_lt_unique; [done| |].
      { repeat constructor; lia. }
      intros g. rewrite Hmem. split.
      * intros (p' & ->%list_elem_of_singleton & Hg).
        by apply (excluded_within_window ttl p [1; 2] t0 now r g).
      * intros Hg. exists p. split; [by apply list_elem_of_singleton|].
        by apply (excluded_within_window ttl p [1; 2] t0 now r g).
    + intros Hle. do 2 f_equal.
      destruct exclude_groups as [|g rest]; [done|]. exfalso.
      destruct (proj1 (Hmem g)) as (p' & ->%list_elem_of_singleton & Hg);
        [by left|].
      by apply (excluded_after_window ttl p [1; 2] t0 now r g).
  - intros p t0 r. apply needs_final_flag_after_set.
Qed.

Lemma query_flags_or_and_union_witness :
  fst (get_projects_query_flags 43200 [7] 1000
         (set_project_exclude_groups 43200 7 [1; 2] 900 empty_redis))
  = Ok (false, [1; 2])
  /\ fst (get_projects_query_flags 43200 [7] 44100
            (set_project_exclude_groups 43200 7 [1; 2] 900 empty_redis))
     = Ok (false, []).
Proof.
  split.
  - apply (proj1 (proj2 (query_flags_or_and_union 43200 1000)) 7 900%Q empty_redis);
      [reflexivity|reflexivity|by vm_compute|by vm_compute].
  - apply (proj1 (proj2 (query_flags_or_and_union 43200 44100)) 7 900%Q empty_redis);
      [reflexivity|reflexivity|by vm_compute].
Defined.

(** ** The replacer worker *)

(** C4: a flush processes the units one after the other in the order
    received: flushing [first ++ rest] is flushing [first] and then, from
    the world it leaves, [rest]. For each unit the count query is executed;
    when the count is 0 the unit is skipped, with no insert query executed
    and the consistency state untouched; otherwise the consistency update
    its descriptor names (the needs-final flag or the excluded group ids) is
    applied to the state store, and after it the insert query is
    executed. In the state store after a counted unit, the project named by
    a needs-final descriptor has an unexpired needs-final flag exactly until
    the retention window since the update is over, and every group id of an
    excluded-groups descriptor is an excluded id of the project throughout
    that window. *)
Theorem flush_batch_sequential
  (ttl : Z) (table : string) (format : string -> gmap string string -> string)
  {Environment : Type}
  (execute_robust : string -> Environment -> list (list Z) * Environment)
  (time_time : Environment -> Q) :
  let flush := flush_batch ttl table format execute_robust time_time in
  (forall (first rest : list Replacement) (w : World),
      flush (first ++ rest)%list w
      = match flush first w with
        | (Ok _, w') => flush rest w'
        | (Raise e, w') => (Raise e, w')
        end)
  /\ (forall (u : Replacement) (w : World) (count : Z) (row : list Z)
        (rows : list (list Z)) (counted : Environment),
         let args := <["table_name" := table]> (query_args u) in
         let count_query := format (count_query_template u) args in
         let insert_query := format (insert_query_template u) args in
         let flags := query_time_flags u in
         let inserted := snd (execute_robust insert_query counted) in
         execute_robust count_query (environment w)
         = ((count :: row) :: rows, counted) ->
         (count = 0 ->
          flush [u] w
          = (Ok tt,
             {| environment := counted;
                redis := redis w;
                calls := (calls w ++ [ExecuteRobust count_query])%list |}))
         /\ (count <> 0 -> flag_type flags = NEEDS_FINAL ->
             flush [u] w
             = (Ok tt,
                {| environment := inserted;
                   redis := set_project_needs_final ttl (project_id flags)
                              (time_time counted) (redis w);
                   calls := (calls w
                             ++ [ ExecuteRobust count_query;
                                  SetProjectNeedsFinal (project_id flags);
                                  ExecuteRobust insert_query ])%list |}))
         /\ (count <> 0 -> flag_type flags = EXCLUDE_GROUPS ->
             forall group_ids : list Z,
               flag_data flags = Some group_ids ->
               flush [u] w
               = (Ok tt,
                  {| environment := inserted;
                     redis := set_project_exclude_groups ttl (project_id flags)
                                group_ids (time_time counted) (redis w);
                     calls := (calls w
                               ++ [ ExecuteRobust count_query;
                                    SetProjectExcludeGroups (project_id flags)
                                      group_ids;
                                    ExecuteRobust insert_query ])%list |}))
         /\ (count <> 0 -> flag_type flags = NO_FLAG ->
             flush [u] w
             = (Ok tt,
                {| environment := inserted;
                   redis := redis w;
                   calls := (calls w
                             ++ [ ExecuteRobust count_query;
                                  ExecuteRobust insert_query ])%list |})))
  /\ (forall (u : Replacement) (w : World) (count : Z) (row : list Z)
        (rows : list (list Z)) (counted : Environment),
         let args := <["table_name" := table]> (query_args u) in
         let count_query := format (count_query_template u) args in
         let flags := query_time_flags u in
         let updated := time_time counted in
         let stored := redis (snd (flush [u] w)) in
         execute_robust count_query (environment w)
         = ((count :: row) :: rows, counted) ->
         count <> 0 ->
         (flag_type flags = NEEDS_FINAL ->
          forall now : Q,
            needs_final_flag stored now (project_id flags)
            <-> (now < updated + inject_Z ttl)%Q)
         /\ (flag_type flags = EXCLUDE_GROUPS ->
             forall group_ids : list Z,
               flag_data flags = Some group_ids ->
               forall (now : Q) (g : Z),
                 (updated <= now)%Q -> (now < updated + inject_Z ttl)%Q ->
                 g ∈ group_ids ->
                 excluded ttl stored now (project_id flags) g)).
Proof.
  intros flush.
  assert (Hunit : forall (u : Replacement) (w : World) (count : Z)
            (row : list Z) (rows : list (list Z)) (counted : Environment),
            execute_robust
              (format (count_query_template u)
                 (<["table_name" := table]> (query_args u))) (environment w)
            = ((count :: row) :: rows, counted) ->
            count <> 0 ->
            redis (snd (flush [u] w))
            = match flag_type (query_time_flags u) with
              | NEEDS_FINAL =>
                  set_project_needs_final ttl (project_id (query_time_flags u))
                    (time_time counted) (redis w)
              | EXCLUDE_GROUPS =>
                  match flag_data (query_time_flags u) with
                  | Some group_ids =>
                      set_project_exclude_groups ttl
                        (project_id (query_time_flags u)) group_ids
                        (time_time counted) (redis w)
                  | None => redis w
                  end
              | NO_FLAG => redis w
              end).
  { intros u w count row rows counted Hcount Hne.
    unfold flush. cbn [flush_batch]. unfold and_then, call_execute_robust.
    rewrite Hcount. cbn [first_cell returns].
    rewrite (proj2 (Z.eqb_neq _ _) Hne).
    destruct (flag_type (query_time_flags u)).
    - unfold call_set_project_needs_final. cbn [environment redis calls].
      by destruct (execute_robust _ counted).
    - destruct (flag_data (query_time_flags u)); [|done].
      unfold call_set_project_exclude_groups. cbn [environment redis calls].
      by destruct (execute_robust _ counted).
    - cbn [returns environment redis calls].
      by destruct (execute_robust _ counted). }
  split; [|split]; cycle 2.
  { intros u w count row rows counted args count_query flags updated stored
      Hcount Hne.
    unfold stored. rewrite (Hunit u w count row rows counted Hcount Hne).
    fold flags. split.
    - intros -> now. apply needs_final_flag_after_set.
    - intros -> group_ids -> now g. apply excluded_once_recorded. }
  - intros first rest. induction first as [|u first IH]; intros w; [done|].
    unfold flush in *. cbn [app flush_batch]. unfold and_then.
    destruct (call_execute_robust execute_robust _ w) as [[rows|e] w1]; [|done].
    destruct (first_cell rows w1) as [[count|e] w2]; [|done].
    destruct (count =? 0); [apply IH|].
    assert (Hinsert : forall w3 : World,
              match call_execute_robust execute_robust
                      (format (insert_query_template u)
                         (<["table_name" := table]> (query_args u))) w3 with
              | (Ok _, w') =>
                  flush_batch ttl table format execute_robust time_time
                    (first ++ rest) w'
              | (Raise e, w') => (Raise e, w')
              end
              = match
                  match call_execute_robust execute_robust
                          (format (insert_query_template u)
                             (<["table_name" := table]> (query_args u))) w3 with
                  | (Ok _, w') =>
                      flush_batch ttl table format execute_robust time_time first w'
                  | (Raise e, w') => (Raise e, w')
                  end
                with
                | (Ok _, w') =>
                    flush_batch ttl table format execute_robust time_time rest w'
                | (Raise e, w') => (Raise e, w')
                end).
    { intros w3.
      destruct (call_execute_robust execute_robust _ w3) as [[?|e] w4];
        [apply IH|done]. }
    destruct (flag_type (query_time_flags u)).
    + apply Hinsert.
    + destruct (flag_data (query_time_flags u)); [apply Hinsert|done].
    + apply Hinsert.
  - intros u w count row rows counted args count_query insert_query flags
      inserted Hcount.
    assert (Hinsert : forall w' : World,
              call_execute_robust execute_robust insert_query w'
              = (Ok (fst (execute_robust insert_query (environment w'))),
                 {| environment := snd (execute_robust insert_query (environment w'));
                    redis := redis w';
                    calls := (calls w' ++ [ExecuteRobust insert_query])%list |})).
    { intros w'. unfold call_execute_robust.
      by destruct (execute_robust insert_query (environment w')). }
    assert (Hstep : forall rest : Z -> Step unit,
              and_then (call_execute_robust execute_robust count_query)
                (fun rows => and_then (first_cell rows) rest) w
              = rest count
                  {| environment := counted;
                     redis := redis w;
                     calls := (calls w ++ [ExecuteRobust count_query])%list |}).
    { intros rest. unfold and_then at 1, call_execute_robust at 1.
      by rewrite Hcount. }
    unfold flush. cbn [flush_batch]. fold args. fold count_query.
    fold insert_query. fold flags. rewrite Hstep. repeat split.
    + by intros ->.
    + intros Hne Hflag. rewrite (proj2 (Z.eqb_neq _ _) Hne), Hflag.
      unfold and_then, call_set_project_needs_final. rewrite Hinsert.
      cbn [environment redis calls returns]. by rewrite <- !app_assoc.
    + intros Hne Hflag group_ids Hdata.
      rewrite (proj2 (Z.eqb_neq _ _) Hne), Hflag, Hdata.
      unfold and_then, call_set_project_exclude_groups. rewrite Hinsert.
      cbn [environment redis calls returns]. by rewrite <- !app_assoc.
    + intros Hne Hflag. rewrite (proj2 (Z.eqb_neq _ _) Hne), Hflag.
      unfold and_then, returns. rewrite Hinsert.
      cbn [environment redis calls]. by rewrite <- !app_assoc.
Qed.

Lemma flush_batch_sequential_witness :
  flush_batch 43200 "sentry_local" example_format example_execute_robust id
    [example_deleted] example_world
  = (Ok tt,
     {| environment := 1%Q;
        redis := empty_redis;
        calls := [ExecuteRobust "count deleted"] |})
  /\ calls (snd (flush_batch 43200 "sentry_local" example_format
                   example_execute_robust id
                   [example_deleted; example_merged] example_world))
     = [ ExecuteRobust "count deleted";
         ExecuteRobust "count merged";
         SetProjectNeedsFinal 7;
         ExecuteRobust "insert merged" ]
  /\ needs_final_flag
       (redis (snd (flush_batch 43200 "sentry_local" example_format
                      example_execute_robust id [example_merged]
                      example_world)))
       1000 7
  /\ excluded 43200
       (redis (snd (flush_batch 43200 "sentry_local" example_format
                      example_execute_robust id [example_excluding]
                      example_world)))
       1000 7 2.
Proof.
  pose proof (flush_batch_sequential 43200 "sentry_local" example_format
                example_execute_robust id) as (Hseq & Hunit & Hstored).
  cbv zeta in Hseq, Hunit, Hstored.
  assert (Hskip :
            flush_batch 43200 "sentry_local" example_format
              example_execute_robust id [example_deleted] example_world
            = (Ok tt,
               {| environment := 1%Q;
                  redis := empty_redis;
                  calls := [ExecuteRobust "count deleted"] |})).
  { by apply (proj1 (Hunit example_deleted example_world 0 [] [] 1%Q eq_refl)). }
  split; [exact Hskip|].
  pose proof (Hseq [example_deleted] [example_merged] example_world) as Hboth.
  cbn [app] in Hboth. rewrite Hboth, Hskip.
  destruct (Hunit example_merged
              {| environment := 1%Q;
                 redis := empty_redis;
                 calls := [ExecuteRobust "count deleted"] |}
              3 [] [] 2%Q eq_refl) as (_ & Hflag & _).
  split; [by rewrite Hflag|]. split.
  - apply (proj1 (Hstored example_merged example_world 3 [] [] 1%Q eq_refl
                    ltac:(done)) eq_refl 1000%Q).
    by vm_compute.
  - apply (proj2 (Hstored example_excluding example_world 3 [] [] 1%Q eq_refl
                    ltac:(done)) eq_refl [1; 2] eq_refl 1000%Q 2).
    + by vm_compute.
    + by vm_compute.
    + by apply (bool_decide_unpack _).
Defined.

(** ** More on the discover mappers *)

Lemma match_string_or (names : list string) (n : string) :
  match_string (Or (map StringMatch names)) n
  = if existsb (String.eqb n) names then Some MatchResult_ else None.
Proof.
  cbn [match_string]. induction names as [|name names IH]; [done|].
  cbn [map existsb match_string]. rewrite (String.eqb_sym n name).
  by destruct (String.eqb name n).
Qed.

Lemma existsb_eqb_In (n : string) (names : list string) :
  existsb (String.eqb n) names = true <-> In n names.
Proof.
  rewrite existsb_exists. split.
  - by intros (name & Hin & ->%String.eqb_eq).
  - intros Hin. exists n. by rewrite String.eqb_refl.
Qed.

(** X1: the Function-to-NULL mapper answers exactly the calls whose name is
    one of its function names, whatever their parameters, with
    [identity(NULL)] under the alias of the call; every other call and every
    node that is not a function call is declined. *)
Theorem DefaultNoneFunctionMapper_maps_named_calls
  (self : DefaultNoneFunctionMapper) (t : Translator) :
  (forall (a : option string) (n : string) (ps : list Expression),
      In n (function_names self) ->
      attempt_map self (FunctionCall a n ps) t
      = Ok (Some (FunctionCall a "identity" [NULL])))
  /\ (forall (a : option string) (n : string) (ps : list Expression),
         ~ In n (function_names self) ->
         attempt_map self (FunctionCall a n ps) t = Ok None)
  /\ (forall e : Expression,
         is_FunctionCall e = false -> attempt_map self e t = Ok None).
Proof.
  unfold attempt_map, DefaultNoneFunctionMapper_attempt_map,
    DefaultNoneFunctionMapper_function_match.
  repeat split.
  - intros a n ps Hin. cbn [match_]. rewrite match_string_or.
    by rewrite (proj2 (existsb_eqb_In _ _) Hin).
  - intros a n ps Hout. cbn [match_]. rewrite match_string_or.
    destruct (existsb _ _) eqn:Hin; [|done].
    by apply existsb_eqb_In in Hin.
  - by intros [].
Qed.

Lemma DefaultNoneFunctionMapper_maps_named_calls_witness :
  attempt_map {| function_names := ["apdex"; "failure_rate"] |}
    (FunctionCall (Some "a") "failure_rate" [Column None None "duration"])
    untranslated
  = Ok (Some (FunctionCall (Some "a") "identity" [NULL]))
  /\ attempt_map {| function_names := ["apdex"; "failure_rate"] |}
       (FunctionCall (Some "a") "count" []) untranslated
     = Ok None.
Proof.
  split.
  - apply (DefaultNoneFunctionMapper_maps_named_calls
             {| function_names := ["apdex"; "failure_rate"] |} untranslated).
    simpl. auto.
  - apply (proj1 (proj2 (DefaultNoneFunctionMapper_maps_named_calls
             {| function_names := ["apdex"; "failure_rate"] |} untranslated))).
    simpl. intros [H|[H|[]]]; discriminate.
Defined.

(** X2: whatever the function variant of the ifNull-collapse mapper returns
    is [ifNull(NULL, NULL)] under the alias of the mapped node, and the
    mapper maps that call to itself under every translator that leaves the
    NULL literal alone: collapsing is idempotent. *)
Theorem ifNull_collapse_is_idempotent
  (e e' : Expression) (t t' : Translator)
  (Hmapped : attempt_map DefaultIfNullFunctionMapper_ e t = Ok (Some e'))
  (Hnull : accept NULL t' = Ok NULL) :
  e' = collapsed (alias e)
  /\ attempt_map DefaultIfNullFunctionMapper_ e' t' = Ok (Some e').
Proof.
  unfold attempt_map, DefaultIfNullFunctionMapper_attempt_map in Hmapped.
  destruct (parameters e) as [ps|]; [|done]. cbn [mbind Result_bind] in Hmapped.
  destruct (for_each _ ps) as [ps'|]; [|done]. cbn [mbind Result_bind] in Hmapped.
  destruct (_ && _); [|done]. injection Hmapped as <-.
  split; [done|].
  unfold attempt_map, DefaultIfNullFunctionMapper_attempt_map.
  cbn [parameters mbind Result_bind for_each]. fold NULL. by rewrite Hnull.
Qed.

Lemma ifNull_collapse_is_idempotent_witness :
  attempt_map DefaultIfNullFunctionMapper_ (collapsed (Some "x")) untranslated
  = Ok (Some (collapsed (Some "x"))).
Proof.
  apply (ifNull_collapse_is_idempotent
           (FunctionCall (Some "x") "toString" [NULL]) (collapsed (Some "x"))
           untranslated untranslated eq_refl eq_refl).
Defined.

Lemma string_length_app (s1 s2 : string) :
  String.length (s1 +:+ s2) = (String.length s1 + String.length s2)%nat.
Proof. induction s1 as [|c s1 IH]; simpl; [done|]. by rewrite IH. Qed.

(** X3: the curried variant is not idempotent: mapping its own result again,
    under a translator that leaves the NULL literal and the renamed inner
    call alone, appends [OrNull] to the name of the inner function once
    more. *)
Theorem curried_collapse_renames_again
  (t : Translator) (a : option string) (name : string)
  (ips ps : list Expression)
  (Hps : ps <> [])
  (Hnull : accept NULL t = Ok NULL)
  (Hinner : accept (FunctionCall None (name +:+ "OrNull") ips) t
            = Ok (FunctionCall None (name +:+ "OrNull") ips)) :
  attempt_map DefaultIfNullCurriedFunctionMapper_
    (CurriedFunctionCall a (FunctionCall None (name +:+ "OrNull") ips)
       (map (fun _ => NULL) ps)) t
  = Ok (Some (CurriedFunctionCall a
                (FunctionCall None ((name +:+ "OrNull") +:+ "OrNull") ips)
                (map (fun _ => NULL) ps)))
  /\ (name +:+ "OrNull") +:+ "OrNull" <> name +:+ "OrNull".
Proof.
  split.
  - unfold attempt_map, DefaultIfNullCurriedFunctionMapper_attempt_map.
    cbn [internal_function parameters mbind Result_bind].
    rewrite Hinner. cbn [mbind Result_bind is_FunctionCall assert].
    assert (Hnulls : forall qs : list Expression,
              for_each (fun p => accept p t) (map (fun _ => NULL) qs)
              = Ok (map (fun _ => NULL) qs)).
    { induction qs as [|q qs IH]; [done|].
      cbn [map for_each]. rewrite Hnull. cbn [mbind Result_bind].
      by rewrite IH. }
    rewrite Hnulls. cbn [mbind Result_bind].
    assert (all_null (map (fun _ => NULL) ps) = true) as ->.
    { apply all_null_of_null_parameters. clear. by induction ps. }
    rewrite length_positive, bool_decide_eq_false_2 by by destruct ps.
    cbn [andb negb function_name parameters mbind Result_bind alias].
    by rewrite map_map.
  - intros Heq. apply (f_equal String.length) in Heq.
    rewrite !string_length_app in Heq. simpl in Heq. lia.
Qed.

Lemma curried_collapse_renames_again_witness :
  attempt_map DefaultIfNullCurriedFunctionMapper_
    (CurriedFunctionCall (Some "p")
       (FunctionCall None "quantileOrNull" [Literal None (VInt 95)])
       [NULL]) untranslated
  = Ok (Some (CurriedFunctionCall (Some "p")
                (FunctionCall None "quantileOrNullOrNull" [Literal None (VInt 95)])
                [NULL])).
Proof.
  apply (curried_collapse_renames_again untranslated (Some "p") "quantile"
           [Literal None (VInt 95)] [NULL]); [discriminate|reflexivity..].
Defined.

Lemma for_each_raises {A B : Type} (f : A -> Result B)
  (before after : list A) (p : A) (e : Exception) :
  (forall q : A, In q before -> exists q' : B, f q = Ok q') ->
  f p = Raise e ->
  for_each f (before ++ p :: after) = Raise e.
Proof.
  intros Hbefore Hp. induction before as [|q before IH]; cbn [app for_each].
  - by rewrite Hp.
  - destruct (Hbefore q) as [q' ->]; [by left|]. cbn [mbind Result_bind].
    rewrite IH; [done|]. intros q0 Hq0. apply Hbefore. by right.
Qed.

(** X4: the exceptions of the curried ifNull-collapse mapper, in the order
    the code meets them: an exception of the translation of the inner
    function propagates; an inner function that translates to anything but a
    function call fails the assertion, whatever the parameters are; and
    after that the exception of the first parameter whose translation raises
    propagates. *)
Theorem curried_collapse_exceptions
  (t : Translator) (a : option string) (f : Expression) (ps : list Expression) :
  (forall e : Exception,
      accept f t = Raise e ->
      attempt_map DefaultIfNullCurriedFunctionMapper_
        (CurriedFunctionCall a f ps) t = Raise e)
  /\ (forall f' : Expression,
         accept f t = Ok f' -> is_FunctionCall f' = false ->
         attempt_map DefaultIfNullCurriedFunctionMapper_
           (CurriedFunctionCall a f ps) t = Raise AssertionError)
  /\ (forall (f' p : Expression) (before after : list Expression) (e : Exception),
         accept f t = Ok f' -> is_FunctionCall f' = true ->
         ps = (before ++ p :: after)%list ->
         (forall q : Expression, In q before ->
            exists q' : Expression, accept q t = Ok q') ->
         accept p t = Raise e ->
         attempt_map DefaultIfNullCurriedFunctionMapper_
           (CurriedFunctionCall a f ps) t = Raise e).
Proof.
  unfold attempt_map, DefaultIfNullCurriedFunctionMapper_attempt_map.
  cbn [internal_function parameters mbind Result_bind]. repeat split.
  - by intros e ->.
  - intros f' Hf Hcall. rewrite Hf. cbn [mbind Result_bind]. by rewrite Hcall.
  - intros f' p before after e Hf Hcall -> Hbefore Hp.
    rewrite Hf. cbn [mbind Result_bind]. rewrite Hcall.
    cbn [assert mbind Result_bind].
    by rewrite (for_each_raises _ before after p e Hbefore Hp).
Qed.

Lemma curried_collapse_exceptions_witness :
  attempt_map DefaultIfNullCurriedFunctionMapper_
    (CurriedFunctionCall None (Column None None "level") [NULL]) untranslated
  = Raise AssertionError
  /\ attempt_map DefaultIfNullCurriedFunctionMapper_
       (CurriedFunctionCall None (FunctionCall None "quantile" [])
          [ NULL;
            CurriedFunctionCall None (Column None None "level") [] ])
       (translate_expression 2 null_function_translation_mappers)
     = Raise AssertionError.
Proof.
  split.
  - by apply (proj1 (proj2 (curried_collapse_exceptions untranslated None
                              (Column None None "level") [NULL]))
                (Column None None "level")).
  - apply (proj2 (proj2 (curried_collapse_exceptions
                           (translate_expression 2 null_function_translation_mappers)
                           None (FunctionCall None "quantile" [])
                           [ NULL;
                             CurriedFunctionCall None (Column None None "level") [] ]))
             (FunctionCall None "quantile" [])
             (CurriedFunctionCall None (Column None None "level") [])
             [NULL] []); try reflexivity.
    intros q [<-|[]]. by eexists.
Defined.

Lemma for_each_forallb {A B : Type} (f : A -> Result B) (P : B -> bool)
  (ps : list A) :
  (forall p : A, In p ps -> exists p' : B, f p = Ok p' /\ P p' = true) ->
  exists ps' : list B,
    for_each f ps = Ok ps' /\ forallb P ps' = true /\ length ps' = length ps.
Proof.
  induction ps as [|p ps IH]; intros Hps; [by exists []|].
  destruct (Hps p) as (p' & Hp & HP); [by left|].
  destruct IH as (ps' & Hps' & HPs & Hlen); [intros q Hq; apply Hps; by right|].
  exists (p' :: ps'). cbn [for_each]. rewrite Hp, Hps'.
  cbn [mbind Result_bind forallb length]. by rewrite HP, HPs, Hlen.
Qed.

Lemma rule_ColumnToLiteral (self : ColumnToLiteral) (a tbl : option string)
  (name : string) (t : Translator) :
  rule self (Column a tbl name) t
  = Ok (if String.eqb (from_col_name self) name
           && match from_table_name self with
              | None => true
              | Some from => bool_decide (tbl = Some from)
              end
        then Some (Literal
                     (Some (or_else a (qualified_column name (default "" tbl))))
                     (to_literal_value self))
        else None).
Proof.
  unfold rule, attempt_map, ColumnToLiteral_attempt_map.
  cbn [column_name table_name mbind Result_bind alias].
  by destruct (_ && _).
Qed.

Lemma rule_DefaultNoneColumnMapper (self : DefaultNoneColumnMapper)
  (a tbl : option string) (name : string) (t : Translator) :
  rule self (Column a tbl name) t
  = Ok (if contains (columns self) name
        then Some (Literal
                     (Some (or_else a (qualified_column name (default "" tbl))))
                     VNone)
        else None).
Proof.
  unfold rule, attempt_map, DefaultNoneColumnMapper_attempt_map.
  cbn [column_name table_name mbind Result_bind alias].
  by destruct (contains _ _).
Qed.

Lemma rule_DefaultNoneFunctionMapper (self : DefaultNoneFunctionMapper)
  (a : option string) (n : string) (ps : list Expression) (t : Translator) :
  rule self (FunctionCall a n ps) t
  = Ok (if existsb (String.eqb n) (function_names self)
        then Some (FunctionCall a "identity" [NULL])
        else None).
Proof.
  unfold rule, attempt_map, DefaultNoneFunctionMapper_attempt_map,
    DefaultNoneFunctionMapper_function_match.
  cbn [match_]. rewrite match_string_or. by destruct (existsb _ _).
Qed.

Lemma rule_DefaultIfNullFunctionMapper (a : option string) (n : string)
  (ps : list Expression) (t : Translator) :
  rule DefaultIfNullFunctionMapper_ (FunctionCall a n ps) t
  = (params ← for_each (fun p => accept p t) ps;
     if all_null params && (0 <? Z.of_nat (length params))
     then Ok (Some (collapsed a))
     else Ok None).
Proof. reflexivity. Qed.

(** X5: translated for the transactions storage, an expression with nothing
    behind it there (a NULL literal, a reference to an events column other
    than [group_id], or a call on such expressions only) becomes a NULL
    literal or [ifNull(NULL, NULL)], however deep the calls are nested; a
    call becomes [ifNull(NULL, NULL)] under its own alias. *)
Theorem calls_on_missing_columns_collapse (fuel : nat) (e : Expression)
  (Hmissing : missing_on_transactions e = true)
  (Hfuel : (height e < fuel)%nat) :
  exists e' : Expression,
    translate_expression fuel DiscoverTransactionsEntity_custom_mappers e = Ok e'
    /\ null_parameter e' = true
    /\ (forall (a : option string) (n : string) (ps : list Expression),
           e = FunctionCall a n ps -> e' = collapsed a).
Proof.
  revert e Hmissing Hfuel. induction fuel as [|fuel IH]; intros e Hmissing Hfuel;
    [lia|].
  destruct e as [a v|a tbl name|a c k|a n ps|a f ps]; try done.
  - destruct v; try done. exists (Literal a VNone). by repeat split.
  - cbn [missing_on_transactions] in Hmissing.
    apply andb_prop in Hmissing as [Hin Hname%negb_true_iff].
    exists (Literal (Some (or_else a (qualified_column name (default "" tbl)))) VNone).
    split; [|by split].
    cbn [translate_expression rules_for DiscoverTransactionsEntity_custom_mappers
           TranslationMappers.concat TranslationMappers.columns
           transaction_translation_mappers null_function_translation_mappers
           app apply_rules].
    rewrite rule_ColumnToLiteral. cbn [from_col_name].
    rewrite String.eqb_sym, Hname. cbn [andb mbind Result_bind].
    rewrite rule_DefaultNoneColumnMapper. cbn [columns]. by rewrite Hin.
  - cbn [missing_on_transactions] in Hmissing.
    apply andb_prop in Hmissing as [[Hname%negb_true_iff Hsome]%andb_prop Hps].
    exists (collapsed a). split; [|split; [done|by intros ? ? ? [= <- _ _]]].
    destruct (for_each_forallb
                (fun p => accept p
                   (translate_expression fuel DiscoverTransactionsEntity_custom_mappers))
                null_parameter ps) as (ps' & Hps' & Hnull & Hlen).
    { intros p Hp. destruct (IH p) as (p' & Hp' & Hnullp & _).
      - by apply (proj1 (forallb_forall _ _) Hps).
      - pose proof (children_height p (FunctionCall a n ps) Hp). lia.
      - by exists p'. }
    cbn [translate_expression rules_for DiscoverTransactionsEntity_custom_mappers
           TranslationMappers.concat TranslationMappers.functions
           transaction_translation_mappers null_function_translation_mappers
           app apply_rules].
    rewrite rule_DefaultNoneFunctionMapper. cbn [function_names].
    rewrite Hname. cbn [mbind Result_bind].
    rewrite rule_DefaultIfNullFunctionMapper, Hps'. cbn [mbind Result_bind].
    rewrite (all_null_of_null_parameters _ Hnull), length_positive.
    rewrite bool_decide_eq_false_2; [done|].
    intros ->. by destruct ps.
Qed.

Lemma calls_on_missing_columns_collapse_witness :
  exists e' : Expression,
    translate_expression 3 DiscoverTransactionsEntity_custom_mappers
      (FunctionCall (Some "s") "concat"
         [ FunctionCall None "toString" [Column None None "level"];
           Column None (Some "events") "culprit" ]) = Ok e'
    /\ null_parameter e' = true
    /\ (forall (a : option string) (n : string) (ps : list Expression),
           FunctionCall (Some "s") "concat"
             [ FunctionCall None "toString" [Column None None "level"];
               Column None (Some "events") "culprit" ]
           = FunctionCall a n ps -> e' = collapsed a).
Proof.
  apply (calls_on_missing_columns_collapse 3); [reflexivity|simpl; lia].
Defined.

Lemma contains_In (columns : ColumnSet) (name : string) :
  contains columns name = true <-> In name (flattened columns).
Proof. apply existsb_eqb_In. Qed.

Lemma events_columns_not_in_transactions (name : string) :
  contains EVENTS_COLUMNS name = true -> contains TRANSACTIONS_COLUMNS name = false.
Proof.
  intros Hin%contains_In.
  assert (Hall : forallb (fun n => negb (contains TRANSACTIONS_COLUMNS n))
                   (flattened EVENTS_COLUMNS) = true) by by vm_compute.
  apply negb_true_iff. by apply (proj1 (forallb_forall _ _) Hall).
Qed.

(** X6: the events and the transactions column sets share no name, and the
    two discover chains are complementary on column references: a
    transactions column is left as it is by the transactions chain and
    becomes a NULL literal under the events chain; an events column is left
    as it is by the events chain and becomes a literal under the
    transactions chain (0 for [group_id], NULL otherwise). The literal
    carries the alias of the reference, or its qualified name. *)
Theorem discover_chains_are_complementary
  (fuel : nat) (a tbl : option string) (name : string) :
  let reference := Column a tbl name in
  let carried := Some (or_else a (qualified_column name (default "" tbl))) in
  ~ (contains EVENTS_COLUMNS name = true
     /\ contains TRANSACTIONS_COLUMNS name = true)
  /\ (contains TRANSACTIONS_COLUMNS name = true ->
      translate_expression (S fuel) DiscoverTransactionsEntity_custom_mappers
        reference = Ok reference
      /\ translate_expression (S fuel) DiscoverEventsEntity_custom_mappers
           reference = Ok (Literal carried VNone))
  /\ (contains EVENTS_COLUMNS name = true ->
      translate_expression (S fuel) DiscoverEventsEntity_custom_mappers
        reference = Ok reference
      /\ translate_expression (S fuel) DiscoverTransactionsEntity_custom_mappers
           reference
         = Ok (Literal carried
                 (if String.eqb name "group_id" then VInt 0 else VNone))).
Proof.
  intros reference carried. unfold reference.
  cbn [translate_expression rules_for DiscoverTransactionsEntity_custom_mappers
         DiscoverEventsEntity_custom_mappers events_translation_mappers
         TranslationMappers.concat TranslationMappers.columns
         transaction_translation_mappers null_function_translation_mappers
         app apply_rules].
  rewrite rule_ColumnToLiteral, !rule_DefaultNoneColumnMapper.
  cbn [from_col_name from_table_name columns to_literal_value andb].
  rewrite andb_true_r, (String.eqb_sym "group_id" name).
  split; [|split].
  - intros [Hevents Htransactions].
    by rewrite (events_columns_not_in_transactions _ Hevents) in Htransactions.
  - intros Htransactions. rewrite Htransactions.
    destruct (contains EVENTS_COLUMNS name) eqn:Hevents.
    { by rewrite (events_columns_not_in_transactions _ Hevents) in Htransactions. }
    destruct (String.eqb_spec name "group_id") as [->|_]; [done|].
    by split.
  - intros Hevents.
    rewrite Hevents, (events_columns_not_in_transactions _ Hevents).
    split; [done|]. by destruct (String.eqb name "group_id").
Qed.

Lemma discover_chains_are_complementary_witness :
  translate_expression 1 DiscoverTransactionsEntity_custom_mappers
    (Column None None "duration") = Ok (Column None None "duration")
  /\ translate_expression 1 DiscoverEventsEntity_custom_mappers
       (Column None None "duration") = Ok (Literal (Some "duration") VNone).
Proof.
  by apply (proj1 (proj2 (discover_chains_are_complementary 0 None None "duration"))).
Defined.

(** ** More on the consistency flags *)

Lemma get_project_exclude_groups_key_inj (p q : Z) :
  get_project_exclude_groups_key p = get_project_exclude_groups_key q -> p = q.
Proof.
  unfold get_project_exclude_groups_key.
  intros Hkey%(inj (String.app _)). by apply (inj pretty).
Qed.

Lemma get_project_needs_final_key_inj (p q : Z) :
  get_project_needs_final_key p = get_project_needs_final_key q -> p = q.
Proof.
  unfold get_project_needs_final_key.
  intros Hkey%(inj (String.app _)). by apply (inj pretty).
Qed.

(** X7: the keys of the consistency store do not collide: two projects
    never share an exclude-groups key or a needs-final key, and no
    exclude-groups key is a needs-final key. *)
Theorem consistency_keys_do_not_collide (p q : Z) :
  (get_project_exclude_groups_key p = get_project_exclude_groups_key q -> p = q)
  /\ (get_project_needs_final_key p = get_project_needs_final_key q -> p = q)
  /\ get_project_exclude_groups_key p <> get_project_needs_final_key q.
Proof.
  repeat split.
  - apply get_project_exclude_groups_key_inj.
  - apply get_project_needs_final_key_inj.
  - unfold get_project_exclude_groups_key, get_project_needs_final_key.
    intros Hkey. cbv [String.append] in Hkey. congruence.
Qed.

Lemma consistency_keys_do_not_collide_witness :
  get_project_exclude_groups_key 12 = "project_exclude_groups:12"
  /\ get_project_needs_final_key (-3) = "project_needs_final:-3"
  /\ 12 = 12.
Proof.
  split; [reflexivity|]. split; [reflexivity|].
  by apply (proj1 (consistency_keys_do_not_collide 12 12)).
Defined.

Lemma alive_earlier (expiry : option Q) (now now' : Q) :
  (now <= now')%Q -> alive expiry now' = true -> alive expiry now = true.
Proof.
  destruct expiry as [e|]; [|done]. cbn [alive].
  rewrite !Qlt_bool_iff. intros. lra.
Qed.

Lemma prune_strings (ttl : Z) (key : string) (now : Q) (r : Redis) :
  strings (prune ttl key now r) = strings r.
Proof. unfold prune. cbn [run]. by destruct (live_zset key now r). Qed.

(** A trim at time [now] changes no answer at [now] or later. *)
Lemma excluded_at_prune_later (ttl : Z) (key key' : string) (now now' : Q)
  (r : Redis) (g : Z) :
  (now <= now')%Q ->
  excluded_at ttl (prune ttl key now r) now' key' g <-> excluded_at ttl r now' key' g.
Proof.
  intros Hle. unfold excluded_at.
  destruct (decide (key = key')) as [<-|Hne]; [|by rewrite prune_other_key].
  rewrite prune_same_key. cbn zeta. split.
  - intros (members & expiry & score & Hlookup & Halive & Hg & Hscore).
    case_decide as Hkept; [done|]. injection Hlookup as <- <-.
    apply map_lookup_filter_Some in Hg as [Hg _].
    unfold live_zset in Hg, Halive.
    destruct (zsets r !! key) as [[members expiry]|]; [|done].
    destruct (alive expiry now); [|done].
    by exists members, expiry, score.
  - intros (members & expiry & score & Hlookup & Halive & Hg & Hscore).
    assert (Hnow : alive expiry now = true) by by apply (alive_earlier _ now now').
    assert (Hlive : live_zset key now r = (members, expiry)).
    { unfold live_zset. by rewrite Hlookup, Hnow. }
    rewrite Hlive. cbn [fst snd]. set (kept := filter _ _).
    assert (Hkept : kept !! g = Some score).
    { apply map_lookup_filter_Some. split; [done|]. apply in_range_stale.
      cbn [snd]. lra. }
    rewrite decide_False by (intros Hempty; by rewrite Hempty in Hkept).
    by exists kept, expiry, score.
Qed.

Lemma execute_exclude_groups_state (ttl : Z) (now : Q) (keys : list string)
  (r : Redis) :
  snd (execute
         (flat_map (fun key =>
            [ ZREMRANGEBYSCORE key NegInf (Finite (now - inject_Z ttl));
              ZREVRANGEBYSCORE key PosInf (Finite (now - inject_Z ttl)) ])
            keys) now r)
  = foldl (fun r key => prune ttl key now r) r keys.
Proof.
  revert r. induction keys as [|key keys IH]; intros r; [done|].
  cbn [flat_map app execute foldl].
  destruct (run_prune ttl key now r) as [n ->].
  destruct (range_after_prune ttl key now r) as (l & -> & _).
  specialize (IH (prune ttl key now r)).
  destruct (execute _ now (prune ttl key now r)) as [replies r'].
  by cbn [snd] in *.
Qed.

(** The store a flags query leaves behind. *)
Lemma get_projects_query_flags_state (ttl : Z) (project_ids : list Z) (now : Q)
  (r : Redis) :
  snd (get_projects_query_flags ttl project_ids now r)
  = foldl (fun r key => prune ttl key now r) r
      (map get_project_exclude_groups_key (remove_dups project_ids)).
Proof.
  unfold get_projects_query_flags.
  rewrite <- (execute_exclude_groups_state ttl now _ r).
  rewrite execute_app, execute_gets.
  destruct (execute (flat_map _ _) now r) as [replies r']. done.
Qed.

Lemma foldl_prune_observations (ttl : Z) (now now' : Q) (keys : list string)
  (r : Redis) :
  (now <= now')%Q ->
  strings (foldl (fun r key => prune ttl key now r) r keys) = strings r
  /\ forall (key : string) (g : Z),
       excluded_at ttl (foldl (fun r key => prune ttl key now r) r keys) now' key g
       <-> excluded_at ttl r now' key g.
Proof.
  intros Hle. revert r. induction keys as [|k keys IH]; intros r; [done|].
  cbn [foldl]. destruct (IH (prune ttl k now r)) as [Hstrings Hexcluded].
  split; [by rewrite Hstrings, prune_strings|].
  intros key g. rewrite Hexcluded. by apply excluded_at_prune_later.
Qed.

(** Two flags queries whose stores show the same flags and the same
    excluded ids for their projects return the same pair. *)
Lemma get_projects_query_flags_ext (ttl : Z) (ids1 ids2 : list Z)
  (now1 now2 : Q) (r1 r2 : Redis) :
  ((exists p, p ∈ ids1 /\ needs_final_flag r1 now1 p)
   <-> (exists p, p ∈ ids2 /\ needs_final_flag r2 now2 p)) ->
  (forall g : Z,
      (exists p, p ∈ ids1 /\ excluded ttl r1 now1 p g)
      <-> (exists p, p ∈ ids2 /\ excluded ttl r2 now2 p g)) ->
  fst (get_projects_query_flags ttl ids1 now1 r1)
  = fst (get_projects_query_flags ttl ids2 now2 r2).
Proof.
  intros Hflags Hexcluded.
  destruct (get_projects_query_flags_spec ttl ids1 now1 r1)
    as (nf1 & eg1 & -> & Hnf1 & Hsorted1 & Heg1).
  destruct (get_projects_query_flags_spec ttl ids2 now2 r2)
    as (nf2 & eg2 & -> & Hnf2 & Hsorted2 & Heg2).
  f_equal. f_equal.
  - apply eq_true_iff_eq. by rewrite Hnf1, Hnf2.
  - apply StronglySorted_lt_unique; try done.
    intros g. by rewrite Heg1, Heg2.
Qed.

(** X8: a flags query only trims what has expired: it leaves the
    needs-final flags as they are, and a query made afterwards, at the same
    time or later and for any projects, returns what it would have returned
    without the earlier query. *)
Theorem query_flags_does_not_disturb_later_queries
  (ttl : Z) (project_ids project_ids' : list Z) (now now' : Q) (r : Redis)
  (Hlater : (now <= now')%Q) :
  strings (snd (get_projects_query_flags ttl project_ids now r)) = strings r
  /\ fst (get_projects_query_flags ttl project_ids' now'
            (snd (get_projects_query_flags ttl project_ids now r)))
     = fst (get_projects_query_flags ttl project_ids' now' r).
Proof.
  rewrite get_projects_query_flags_state.
  destruct (foldl_prune_observations ttl now now'
              (map get_project_exclude_groups_key (remove_dups project_ids)) r Hlater)
    as [Hstrings Hexcluded].
  split; [done|]. apply get_projects_query_flags_ext.
  - unfold needs_final_flag. by rewrite Hstrings.
  - intros g. unfold excluded. by setoid_rewrite Hexcluded.
Qed.

Lemma query_flags_does_not_disturb_later_queries_witness :
  fst (get_projects_query_flags 100 [7; 8] 1050
         (snd (get_projects_query_flags 100 [7] 1000
                 (set_project_exclude_groups 100 7 [1; 2] 990 empty_redis))))
  = fst (get_projects_query_flags 100 [7; 8] 1050
           (set_project_exclude_groups 100 7 [1; 2] 990 empty_redis)).
Proof.
  apply (query_flags_does_not_disturb_later_queries 100 [7] [7; 8] 1000 1050).
  by vm_compute.
Defined.

(** X9: the flags query depends on the set of projects asked for only:
    their order and repetitions do not change the pair returned. *)
Theorem query_flags_ignores_order_and_duplicates
  (ttl : Z) (project_ids project_ids' : list Z) (now : Q) (r : Redis)
  (Hsame : forall p : Z, p ∈ project_ids <-> p ∈ project_ids') :
  fst (get_projects_query_flags ttl project_ids now r)
  = fst (get_projects_query_flags ttl project_ids' now r).
Proof.
  apply get_projects_query_flags_ext; [|intros g]; by setoid_rewrite Hsame.
Qed.

Lemma query_flags_ignores_order_and_duplicates_witness :
  fst (get_projects_query_flags 100 [8; 7; 8] 1000
         (set_project_exclude_groups 100 7 [2; 1] 990 empty_redis))
  = fst (get_projects_query_flags 100 [7; 8] 1000
           (set_project_exclude_groups 100 7 [2; 1] 990 empty_redis)).
Proof.
  apply (query_flags_ignores_order_and_duplicates 100 [8; 7; 8] [7; 8]).
  intros p. rewrite !elem_of_cons, !elem_of_nil. tauto.
Defined.

(** X10: the flags query is conservative in the projects asked for: asking
    for more projects never turns [needs_final] off and never drops an
    excluded id. *)
Theorem query_flags_grows_with_projects
  (ttl : Z) (project_ids project_ids' : list Z) (now : Q) (r : Redis)
  (needs_final needs_final' : bool) (exclude_groups exclude_groups' : list Z)
  (Hmore : forall p : Z, p ∈ project_ids -> p ∈ project_ids')
  (Hfew : fst (get_projects_query_flags ttl project_ids now r)
          = Ok (needs_final, exclude_groups))
  (Hmany : fst (get_projects_query_flags ttl project_ids' now r)
           = Ok (needs_final', exclude_groups')) :
  (needs_final = true -> needs_final' = true)
  /\ (forall g : Z, g ∈ exclude_groups -> g ∈ exclude_groups').
Proof.
  destruct (get_projects_query_flags_spec ttl project_ids now r)
    as (nf1 & eg1 & Heq1 & Hnf1 & _ & Heg1).
  destruct (get_projects_query_flags_spec ttl project_ids' now r)
    as (nf2 & eg2 & Heq2 & Hnf2 & _ & Heg2).
  rewrite Hfew in Heq1. rewrite Hmany in Heq2.
  injection Heq1 as <- <-. injection Heq2 as <- <-. split.
  - rewrite Hnf1, Hnf2. intros (p & Hp & Hflag). exists p. auto.
  - intros g. rewrite Heg1, Heg2. intros (p & Hp & Hg). exists p. auto.
Qed.

Lemma query_flags_grows_with_projects_witness :
  let r :=
    set_project_exclude_groups 100 8 [3] 990
      (set_project_needs_final 100 7 990
         (set_project_exclude_groups 100 7 [1; 2] 990 empty_redis)) in
  fst (get_projects_query_flags 100 [7] 1000 r) = Ok (true, [1; 2])
  /\ fst (get_projects_query_flags 100 [7; 8] 1000 r) = Ok (true, [1; 2; 3])
  /\ (true = true -> true = true)
  /\ (forall g : Z, g ∈ [1; 2] -> g ∈ [1; 2; 3]).
Proof.
  intros r.
  assert (Hfew : fst (get_projects_query_flags 100 [7] 1000 r)
                 = Ok (true, [1; 2])) by by vm_compute.
  assert (Hmany : fst (get_projects_query_flags 100 [7; 8] 1000 r)
                  = Ok (true, [1; 2; 3])) by by vm_compute.
  split; [exact Hfew|]. split; [exact Hmany|].
  apply (query_flags_grows_with_projects 100 [7] [7; 8] 1000 r
           true true [1; 2] [1; 2; 3]).
  - intros p. rewrite !elem_of_cons. tauto.
  - exact Hfew.
  - exact Hmany.
Defined.

Lemma run_other_key (c : Command) (key key' : string) (now : Q) (r : Redis) :
  match c with
  | ZADD k _ | ZREMRANGEBYSCORE k _ _ | EXPIRE k _ => k = key
  | _ => False
  end ->
  key <> key' ->
  zsets (snd (run c now r)) !! key' = zsets r !! key'.
Proof.
  intros Hc Hne. destruct c as [| |k m|k lo hi| |k s]; try done; subst k;
    cbn [run].
  - destruct (live_zset key now r). cbn [snd zsets].
    by rewrite lookup_insert_ne.
  - destruct (live_zset key now r). cbn [snd zsets].
    case_decide; [by rewrite lookup_delete_ne|by rewrite lookup_insert_ne].
  - destruct (zsets r !! key) as [[members expiry]|]; [|done].
    destruct (alive expiry now); [|done]. cbn [snd zsets].
    destruct (s <=? 0); [by rewrite lookup_delete_ne|by rewrite lookup_insert_ne].
Qed.

Lemma set_project_exclude_groups_other_key (ttl project_id : Z)
  (group_ids : list Z) (now : Q) (r : Redis) (key' : string) :
  get_project_exclude_groups_key project_id <> key' ->
  zsets (set_project_exclude_groups ttl project_id group_ids now r) !! key'
  = zsets r !! key'.
Proof.
  intros Hne. unfold set_project_exclude_groups.
  set (key := get_project_exclude_groups_key project_id) in *.
  set (c1 := ZADD key _). set (c2 := ZREMRANGEBYSCORE key _ _).
  set (c3 := EXPIRE key _).
  assert (snd (execute [c1; c2; c3] now r)
          = snd (run c3 now (snd (run c2 now (snd (run c1 now r)))))) as ->.
  { cbn [execute]. destruct (run c1 now r) as [? r1]. cbn [snd].
    destruct (run c2 now r1) as [? r2]. cbn [snd].
    by destruct (run c3 now r2). }
  rewrite (run_other_key c3 key key'), (run_other_key c2 key key'),
    (run_other_key c1 key key'); done.
Qed.

Lemma set_project_exclude_groups_frame
  (ttl project_id : Z) (group_ids project_ids : list Z) (t0 now : Q) (r : Redis) :
  project_id ∉ project_ids ->
  fst (get_projects_query_flags ttl project_ids now
         (set_project_exclude_groups ttl project_id group_ids t0 r))
  = fst (get_projects_query_flags ttl project_ids now r).
Proof.
  intros Hother.
  destruct (set_project_exclude_groups_zset ttl project_id group_ids t0 r)
    as [_ Hstrings].
  apply get_projects_query_flags_ext.
  - unfold needs_final_flag. by rewrite Hstrings.
  - intros g. unfold excluded, excluded_at.
    split; intros (p & Hp & Hg); exists p; (split; [done|]).
    + rewrite set_project_exclude_groups_other_key in Hg; [done|].
      intros Hkey. apply get_project_exclude_groups_key_inj in Hkey. by subst.
    + rewrite set_project_exclude_groups_other_key; [done|].
      intros Hkey. apply get_project_exclude_groups_key_inj in Hkey. by subst.
Qed.

(** X11: recording excluded ids for one project leaves every needs-final
    flag and the excluded ids of every other project as they are: a flags
    query for projects other than that one returns what it returned
    before. *)
Theorem recording_leaves_other_projects_alone
  (ttl project_id : Z) (group_ids project_ids : list Z) (t0 now : Q) (r : Redis)
  (Hother : project_id ∉ project_ids) :
  fst (get_projects_query_flags ttl project_ids now
         (set_project_exclude_groups ttl project_id group_ids t0 r))
  = fst (get_projects_query_flags ttl project_ids now r).
Proof. by apply set_project_exclude_groups_frame. Qed.

Lemma recording_leaves_other_projects_alone_witness :
  fst (get_projects_query_flags 100 [8; 9] 1000
         (set_project_exclude_groups 100 7 [1; 2] 990
            (set_project_exclude_groups 100 8 [3] 980 empty_redis)))
  = fst (get_projects_query_flags 100 [8; 9] 1000
           (set_project_exclude_groups 100 8 [3] 980 empty_redis)).
Proof.
  apply (recording_leaves_other_projects_alone 100 7 [1; 2] [8; 9]).
  rewrite !not_elem_of_cons. repeat split; [lia..|apply not_elem_of_nil].
Defined.

Lemma inject_Z_nonpos (z : Z) : (z <=? 0) = true -> (inject_Z z <= 0)%Q.
Proof. intros Hz%Z.leb_le. unfold Qle. simpl. lia. Qed.

Lemma written_by_empty (ttl : Z) (T : Q) : written_by ttl T empty_redis.
Proof. by intros key members expiry g score. Qed.

Lemma written_by_later (ttl : Z) (T T' : Q) (r : Redis) :
  (T <= T')%Q -> written_by ttl T r -> written_by ttl T' r.
Proof.
  intros Hle Hr key members expiry g score Hlookup Hg.
  destruct (Hr key members expiry g score Hlookup Hg) as [Hscore Hexpiry].
  split; [lra|done].
Qed.

Lemma written_by_prune (ttl : Z) (T now : Q) (key : string) (r : Redis) :
  written_by ttl T r -> written_by ttl T (prune ttl key now r).
Proof.
  intros Hr key' members expiry g score Hlookup Hg.
  destruct (decide (key = key')) as [<-|Hne];
    [|rewrite prune_other_key in Hlookup by done; by eapply Hr].
  rewrite prune_same_key in Hlookup. cbn zeta in Hlookup.
  case_decide; [done|]. injection Hlookup as <- <-.
  apply map_lookup_filter_Some in Hg as [Hg _].
  unfold live_zset in *.
  destruct (zsets r !! key) as [[members expiry]|] eqn:Hlookup; [|done].
  destruct (alive expiry now); [|done]. by eapply Hr.
Qed.

Lemma written_by_set_project_exclude_groups (ttl project_id : Z)
  (group_ids : list Z) (T t0 : Q) (r : Redis) :
  (T <= t0)%Q -> written_by ttl T r ->
  written_by ttl t0 (set_project_exclude_groups ttl project_id group_ids t0 r).
Proof.
  intros Hle Hr key members expiry g score Hlookup Hg.
  destruct (decide (get_project_exclude_groups_key project_id = key)) as [<-|Hne].
  - destruct (set_project_exclude_groups_zset ttl project_id group_ids t0 r)
      as [Hzset _].
    cbn zeta in Hzset. rewrite Hzset in Hlookup.
    case_decide; [done|]. destruct (ttl <=? 0); [done|].
    injection Hlookup as <- <-.
    apply map_lookup_filter_Some in Hg as [Hg _].
    rewrite zadd_lookup in Hg.
    assert (score <= t0)%Q as Hscore.
    { destruct (decide (g ∈ group_ids)); [injection Hg as <-; lra|].
      apply live_zset_lookup in Hg as (members & expiry & Hlookup & _ & Hg).
      destruct (Hr _ _ _ _ _ Hlookup Hg) as [? _]. lra. }
    split; [done|]. eexists. split; [done|]. lra.
  - rewrite set_project_exclude_groups_other_key in Hlookup by done.
    by apply (written_by_later ttl T t0 r Hle Hr key members expiry g score).
Qed.

(** X12: the replacer keeps its sorted sets well aged: in the empty store,
    and from then on after every recording of excluded ids (at a time not
    before the earlier ones), every setting of a needs-final flag and every
    flags query, no score lies in the future and no sorted set expires
    before the retention window of one of its members is over. In such a
    store an id is excluded exactly when its score is younger than the
    window: the expiry of the key never cuts a live id off. *)
Theorem replacer_keeps_store_well_aged (ttl : Z) (T : Q) (r : Redis) :
  written_by ttl T empty_redis
  /\ (written_by ttl T r ->
      (forall (project_id : Z) (group_ids : list Z) (t0 : Q),
          (T <= t0)%Q ->
          written_by ttl t0
            (set_project_exclude_groups ttl project_id group_ids t0 r))
      /\ (forall (project_id : Z) (t0 : Q),
             written_by ttl T (set_project_needs_final ttl project_id t0 r))
      /\ (forall (project_ids : list Z) (now : Q),
             written_by ttl T
               (snd (get_projects_query_flags ttl project_ids now r)))
      /\ (forall (now : Q) (key : string) (g : Z),
             excluded_at ttl r now key g
             <-> exists (members : gmap Z Q) (expiry : option Q) (score : Q),
                   zsets r !! key = Some (members, expiry)
                   /\ members !! g = Some score
                   /\ (now - inject_Z ttl < score)%Q)).
Proof.
  split; [apply written_by_empty|].
  intros Hr. split; [|split; [|split; [|intros now key g; split]]].
  - intros project_id group_ids t0 Hle.
    by apply (written_by_set_project_exclude_groups ttl project_id group_ids T).
  - intros project_id t0. exact Hr.
  - intros project_ids now. rewrite get_projects_query_flags_state.
    generalize (map get_project_exclude_groups_key (remove_dups project_ids)).
    intros keys. revert r Hr. induction keys as [|key keys IH]; intros r Hr;
      [done|].
    cbn [foldl]. by apply IH, written_by_prune.
  - intros (members & expiry & score & Hlookup & _ & Hg & Hscore).
    by exists members, expiry, score.
  - intros (members & expiry & score & Hlookup & Hg & Hscore).
    exists members, expiry, score. repeat split; try done.
    destruct (Hr _ _ _ _ _ Hlookup Hg) as (_ & e & -> & He).
    apply Qlt_bool_iff. lra.
Qed.

Lemma replacer_keeps_store_well_aged_witness :
  written_by 100 1010
    (set_project_exclude_groups 100 7 [3] 1010
       (set_project_exclude_groups 100 7 [1; 2] 1000 empty_redis)).
Proof.
  apply (replacer_keeps_store_well_aged 100 1000
           (set_project_exclude_groups 100 7 [1; 2] 1000 empty_redis));
    [|by vm_compute].
  apply (replacer_keeps_store_well_aged 100 1000 empty_redis);
    [|by vm_compute].
  apply (replacer_keeps_store_well_aged 100 1000 empty_redis).
Defined.

(** X13: recording excluded ids only ever adds: in a well-aged store, and
    with time going forward, an id is excluded for the project after the
    recording exactly when it was recorded now and the retention window
    since the recording is not over, or it was excluded before. Earlier
    exclusions are neither dropped nor shortened. *)
Theorem recording_only_adds_exclusions
  (ttl project_id : Z) (group_ids : list Z) (T t0 now : Q) (r : Redis) (g : Z)
  (Hr : written_by ttl T r) (Hpast : (T <= t0)%Q) (Hforward : (t0 <= now)%Q) :
  excluded ttl (set_project_exclude_groups ttl project_id group_ids t0 r) now
    project_id g
  <-> (g ∈ group_ids /\ (now < t0 + inject_Z ttl)%Q)
      \/ excluded ttl r now project_id g.
Proof.
  destruct (set_project_exclude_groups_zset ttl project_id group_ids t0 r)
    as [Hzset _].
  cbn zeta in Hzset. unfold excluded, excluded_at. rewrite Hzset.
  set (key := get_project_exclude_groups_key project_id).
  set (added := foldl _ _ _). set (kept := filter _ added).
  split.
  - intros (members & expiry & score & Hlookup & Halive & Hg & Hscore).
    case_decide; [done|]. destruct (ttl <=? 0); [done|].
    injection Hlookup as <- <-. apply Qlt_bool_iff in Halive.
    apply map_lookup_filter_Some in Hg as [Hg _].
    unfold added in Hg. rewrite zadd_lookup in Hg.
    destruct (decide (g ∈ group_ids)); [by left|]. right.
    apply live_zset_lookup in Hg as (members & expiry & Hlookup & _ & Hg).
    exists members, expiry, score. repeat split; try done.
    destruct (Hr _ _ _ _ _ Hlookup Hg) as (_ & e & -> & He).
    apply Qlt_bool_iff. lra.
  - intros Hcases.
    assert (Hin : exists score : Q,
              added !! g = Some score
              /\ (now - inject_Z ttl < score)%Q /\ (score <= t0)%Q).
    { destruct Hcases as [[Hg Hwindow]
                         |(members & expiry & score & Hlookup & Halive & Hg & Hscore)].
      - exists t0. unfold added. rewrite zadd_lookup, decide_True by done.
        repeat split; lra.
      - destruct (Hr _ _ _ _ _ Hlookup Hg) as [Hold _].
        unfold added. rewrite zadd_lookup.
        destruct (decide (g ∈ group_ids)).
        + exists t0. repeat split; lra.
        + exists score. repeat split; [|done|lra].
          apply live_zset_lookup. exists members, expiry.
          repeat split; [done| |done]. by apply (alive_earlier _ t0 now). }
    destruct Hin as (score & Hadded & Hyoung & Hold).
    assert (Hkept : kept !! g = Some score).
    { apply map_lookup_filter_Some. split; [done|]. cbn [snd].
      unfold in_range. cbn [bound_le_score score_le_bound].
      apply andb_false_iff. right.
      rewrite <- not_true_iff_false, Qle_bool_iff. lra. }
    rewrite decide_False by (intros Hempty; by rewrite Hempty in Hkept).
    destruct (ttl <=? 0) eqn:Httl.
    { apply inject_Z_nonpos in Httl. lra. }
    exists kept, (Some (t0 + inject_Z ttl)%Q), score.
    repeat split; try done. apply Qlt_bool_iff. lra.
Qed.

Lemma recording_only_adds_exclusions_witness :
  excluded 100 (set_project_exclude_groups 100 7 [3] 1010
                  (set_project_exclude_groups 100 7 [1; 2] 1000 empty_redis))
    1050 7 1.
Proof.
  apply (recording_only_adds_exclusions 100 7 [3] 1000 1010 1050
           (set_project_exclude_groups 100 7 [1; 2] 1000 empty_redis) 1).
  - apply (written_by_set_project_exclude_groups 100 7 [1; 2] 1000 1000);
      [by vm_compute|apply written_by_empty].
  - by vm_compute.
  - by vm_compute.
  - right.
    apply (excluded_within_window 100 7 [1; 2] 1000 1050 empty_redis 1);
      [reflexivity|by vm_compute|by vm_compute|].
    rewrite !elem_of_cons. auto.
Defined.

Lemma needs_final_flag_other_project (ttl p q : Z) (t0 now : Q) (r : Redis) :
  p <> q ->
  needs_final_flag (set_project_needs_final ttl p t0 r) now q
  <-> needs_final_flag r now q.
Proof.
  intros Hne. unfold needs_final_flag, set_project_needs_final.
  cbn [run snd strings]. rewrite lookup_insert_ne; [done|].
  by intros ?%get_project_needs_final_key_inj.
Qed.

Lemma set_project_needs_final_frame
  (ttl project_id : Z) (project_ids : list Z) (t0 now : Q) (r : Redis) :
  project_id ∉ project_ids ->
  fst (get_projects_query_flags ttl project_ids now
         (set_project_needs_final ttl project_id t0 r))
  = fst (get_projects_query_flags ttl project_ids now r).
Proof.
  intros Hother. apply get_projects_query_flags_ext.
  - split; intros (q & Hq & Hflag); exists q; (split; [done|]).
    + apply needs_final_flag_other_project in Hflag; [done|]. by intros ->.
    + apply needs_final_flag_other_project; [|done]. by intros ->.
  - done.
Qed.

(** X14: the needs-final flag of one project is enough: while the retention
    window since the flag was set is not over, a flags query for any
    projects that include the flagged one returns [needs_final] true, with
    the excluded ids it returned before the flag was set. *)
Theorem needs_final_of_one_project_is_enough
  (ttl project_id : Z) (project_ids : list Z) (t0 now : Q) (r : Redis)
  (Hasked : project_id ∈ project_ids)
  (Hwindow : (now < t0 + inject_Z ttl)%Q) :
  exists (needs_final : bool) (exclude_groups : list Z),
    fst (get_projects_query_flags ttl project_ids now r)
    = Ok (needs_final, exclude_groups)
    /\ fst (get_projects_query_flags ttl project_ids now
              (set_project_needs_final ttl project_id t0 r))
       = Ok (true, exclude_groups).
Proof.
  destruct (get_projects_query_flags_spec ttl project_ids now r)
    as (nf & eg & Heq & _ & Hsorted & Heg).
  destruct (get_projects_query_flags_spec ttl project_ids now
              (set_project_needs_final ttl project_id t0 r))
    as (nf' & eg' & Heq' & Hnf' & Hsorted' & Heg').
  exists nf, eg. split; [done|]. rewrite Heq'. f_equal. f_equal.
  - apply Hnf'. exists project_id. split; [done|].
    by apply needs_final_flag_after_set.
  - apply StronglySorted_lt_unique; try done.
    intros g. by rewrite Heg, Heg'.
Qed.

Lemma needs_final_of_one_project_is_enough_witness :
  exists (needs_final : bool) (exclude_groups : list Z),
    fst (get_projects_query_flags 100 [8; 7] 1050 empty_redis)
    = Ok (needs_final, exclude_groups)
    /\ fst (get_projects_query_flags 100 [8; 7] 1050
              (set_project_needs_final 100 7 1000 empty_redis))
       = Ok (true, exclude_groups).
Proof.
  apply (needs_final_of_one_project_is_enough 100 7 [8; 7] 1000 1050 empty_redis).
  - rewrite !elem_of_cons. auto.
  - by vm_compute.
Defined.

(** X15: setting the needs-final flag of one project touches nothing else:
    a flags query for projects other than that one returns what it returned
    before; and once the retention window since the setting is over, the
    flag does not count any more, whatever flag the project had before. *)
Theorem needs_final_flag_is_local_and_expires
  (ttl project_id : Z) (project_ids : list Z) (t0 now : Q) (r : Redis) :
  (project_id ∉ project_ids ->
   fst (get_projects_query_flags ttl project_ids now
          (set_project_needs_final ttl project_id t0 r))
   = fst (get_projects_query_flags ttl project_ids now r))
  /\ ((t0 + inject_Z ttl <= now)%Q ->
      exists (needs_final : bool) (exclude_groups : list Z),
        fst (get_projects_query_flags ttl [project_id] now r)
        = Ok (needs_final, exclude_groups)
        /\ fst (get_projects_query_flags ttl [project_id] now
                  (set_project_needs_final ttl project_id t0 r))
           = Ok (false, exclude_groups)).
Proof.
  split; [apply set_project_needs_final_frame|].
  intros Hover.
  destruct (get_projects_query_flags_spec ttl [project_id] now r)
    as (nf & eg & -> & _ & Hsorted & Heg).
  destruct (get_projects_query_flags_spec ttl [project_id] now
              (set_project_needs_final ttl project_id t0 r))
    as (nf' & eg' & -> & Hnf' & Hsorted' & Heg').
  exists nf, eg. split; [done|]. f_equal. f_equal.
  - apply not_true_iff_false. rewrite Hnf'.
    intros (q & ->%list_elem_of_singleton & Hflag).
    apply needs_final_flag_after_set in Hflag. lra.
  - apply StronglySorted_lt_unique; try done.
    intros g. by rewrite Heg, Heg'.
Qed.

Lemma needs_final_flag_is_local_and_expires_witness :
  fst (get_projects_query_flags 100 [8] 1050
         (set_project_needs_final 100 7 1000
            (set_project_needs_final 100 8 1040 empty_redis)))
  = fst (get_projects_query_flags 100 [8] 1050
           (set_project_needs_final 100 8 1040 empty_redis))
  /\ exists (needs_final : bool) (exclude_groups : list Z),
       fst (get_projects_query_flags 100 [7] 1100 empty_redis)
       = Ok (needs_final, exclude_groups)
       /\ fst (get_projects_query_flags 100 [7] 1100
                 (set_project_needs_final 100 7 1000 empty_redis))
          = Ok (false, exclude_groups).
Proof.
  split.
  - apply (needs_final_flag_is_local_and_expires 100 7 [8] 1000 1050).
    rewrite not_elem_of_cons. split; [lia|apply not_elem_of_nil].
  - apply (proj2 (needs_final_flag_is_local_and_expires 100 7 [7] 1000 1100
                    empty_redis)).
    by vm_compute.
Defined.

(** ** More on the replacer worker *)

(** X16: the shape of a replacement message is checked after its version:
    an empty message raises [IndexError]; a message whose first element is
    not 2 is an unknown version whatever follows; under version 2 a message
    of fewer than three elements raises [ValueError], and elements after the
    third are ignored. *)
Theorem process_message_shapes
  (process_replacement : Json -> Json -> Result (option Replacement)) :
  process_message process_replacement [] = Raise IndexError
  /\ (forall (version : Json) (rest : list Json),
         equals_2 version = false ->
         process_message process_replacement (version :: rest)
         = Raise (InvalidMessageVersion (version :: rest)))
  /\ (forall version : Json,
         equals_2 version = true ->
         process_message process_replacement [version] = Raise ValueError
         /\ (forall type_ : Json,
                process_message process_replacement [version; type_]
                = Raise ValueError)
         /\ (forall (type_ event : Json) (extra : list Json),
                process_message process_replacement
                  (version :: type_ :: event :: extra)
                = process_message process_replacement [version; type_; event])).
Proof.
  split; [done|]. split.
  - intros version rest Hversion. cbn [process_message]. by rewrite Hversion.
  - intros version Hversion. cbn [process_message]. rewrite Hversion.
    by repeat split.
Qed.

Lemma process_message_shapes_witness :
  process_message (fun _ _ => Ok None) [JStr "2"; JStr "end_merge"]
  = Raise (InvalidMessageVersion [JStr "2"; JStr "end_merge"])
  /\ process_message (fun _ _ => Ok None) [JInt 2; JStr "end_merge"]
     = Raise ValueError.
Proof.
  split.
  - by apply (process_message_shapes (fun _ _ => Ok None)).
  - by apply (proj2 (proj2 (process_message_shapes (fun _ _ => Ok None)))
                (JInt 2)).
Defined.

(** X17: a flush stops at the first exception and keeps what was done
    before it: when the count query of a unit returns no row, or a first
    row without a cell, or when a counted unit says it excludes groups but
    carries no group ids, the flush raises [IndexError] after the count
    query; the insert query of the unit is not executed, the consistency
    store is as before the unit, and the units behind it are not
    processed. *)
Theorem flush_batch_stops_at_exception
  (ttl : Z) (table : string) (format : string -> gmap string string -> string)
  {Environment : Type}
  (execute_robust : string -> Environment -> list (list Z) * Environment)
  (time_time : Environment -> Q)
  (u : Replacement) (rest : list Replacement) (w : World)
  (rows : list (list Z)) (counted : Environment) :
  let args := <["table_name" := table]> (query_args u) in
  let count_query := format (count_query_template u) args in
  let stopped :=
    {| environment := counted;
       redis := redis w;
       calls := (calls w ++ [ExecuteRobust count_query])%list |} in
  execute_robust count_query (environment w) = (rows, counted) ->
  (rows = [] \/ (exists rows' : list (list Z), rows = [] :: rows')
   \/ (exists (count : Z) (row : list Z) (rows' : list (list Z)),
          rows = (count :: row) :: rows' /\ count <> 0
          /\ flag_type (query_time_flags u) = EXCLUDE_GROUPS
          /\ flag_data (query_time_flags u) = None)) ->
  flush_batch ttl table format execute_robust time_time (u :: rest) w
  = (Raise IndexError, stopped).
Proof.
  intros args count_query stopped Hcount Hrows.
  cbn [flush_batch]. fold args. fold count_query.
  unfold and_then at 1, call_execute_robust at 1. rewrite Hcount.
  fold stopped.
  destruct Hrows as [->|[[rows' ->]|(count & row & rows' & -> & Hne & Hflag & Hdata)]];
    [done..|].
  unfold and_then at 1. cbn [first_cell returns].
  rewrite (proj2 (Z.eqb_neq _ _) Hne), Hflag, Hdata. done.
Qed.

Lemma flush_batch_stops_at_exception_witness :
  flush_batch 43200 "sentry_local" example_format example_execute_robust id
    [example_unanswered; example_merged] example_world
  = (Raise IndexError,
     {| environment := 1%Q;
        redis := empty_redis;
        calls := [ExecuteRobust "count nothing"] |}).
Proof.
  apply (flush_batch_stops_at_exception 43200 "sentry_local" example_format
           example_execute_robust id example_unanswered [example_merged]
           example_world [] 1%Q);
    [reflexivity|by left].
Defined.

(** X18: a flush touches the consistency state of the projects its units
    name and of no other: for projects none of which is named in the batch,
    a flags query after the flush, whether it ended or raised, returns what
    it returned before. *)
Theorem flush_batch_touches_named_projects_only
  (ttl : Z) (table : string) (format : string -> gmap string string -> string)
  {Environment : Type}
  (execute_robust : string -> Environment -> list (list Z) * Environment)
  (time_time : Environment -> Q)
  (project_ids : list Z) (batch : list Replacement) (w : World) (now : Q)
  (Hother : forall p : Z, p ∈ project_ids -> p ∉ projects_of batch) :
  fst (get_projects_query_flags ttl project_ids now
         (redis (snd (flush_batch ttl table format execute_robust time_time
                        batch w))))
  = fst (get_projects_query_flags ttl project_ids now (redis w)).
Proof.
  revert w. induction batch as [|u batch IH]; intros w; [done|].
  assert (Hu : project_id (query_time_flags u) ∉ project_ids).
  { intros Hin. apply (Hother _ Hin). by left. }
  assert (Hbatch : forall p : Z, p ∈ project_ids -> p ∉ projects_of batch).
  { intros p Hp Hin. apply (Hother p Hp). by right. }
  specialize (IH Hbatch).
  assert (Hexec : forall (query : string) (w0 : World),
            exists (rows : list (list Z)) (w1 : World),
              call_execute_robust execute_robust query w0 = (Ok rows, w1)
              /\ redis w1 = redis w0).
  { intros query w0. unfold call_execute_robust.
    destruct (execute_robust query (environment w0)). by eexists _, _. }
  cbn [flush_batch]. unfold and_then.
  destruct (Hexec (format (count_query_template u)
                     (<["table_name" := table]> (query_args u))) w)
    as (rows & w1 & -> & Hw1).
  destruct rows as [|[|count row] rows]; cbn [first_cell raises returns snd];
    [by rewrite Hw1..|].
  destruct (count =? 0); [by rewrite IH, Hw1|].
  destruct (flag_type (query_time_flags u)).
  - unfold call_set_project_needs_final.
    destruct (Hexec (format (insert_query_template u)
                       (<["table_name" := table]> (query_args u)))
                {| environment := environment w1;
                   redis := set_project_needs_final ttl
                              (project_id (query_time_flags u))
                              (time_time (environment w1)) (redis w1);
                   calls := (calls w1
                             ++ [SetProjectNeedsFinal
                                   (project_id (query_time_flags u))])%list |})
      as (rows2 & w2 & -> & Hw2).
    rewrite IH, Hw2. cbn [redis].
    by rewrite set_project_needs_final_frame, Hw1.
  - destruct (flag_data (query_time_flags u)) as [group_ids|];
      [|cbn [raises snd]; by rewrite Hw1].
    unfold call_set_project_exclude_groups.
    destruct (Hexec (format (insert_query_template u)
                       (<["table_name" := table]> (query_args u)))
                {| environment := environment w1;
                   redis := set_project_exclude_groups ttl
                              (project_id (query_time_flags u)) group_ids
                              (time_time (environment w1)) (redis w1);
                   calls := (calls w1
                             ++ [SetProjectExcludeGroups
                                   (project_id (query_time_flags u))
                                   group_ids])%list |})
      as (rows2 & w2 & -> & Hw2).
    rewrite IH, Hw2. cbn [redis].
    by rewrite set_project_exclude_groups_frame, Hw1.
  - cbn [returns].
    destruct (Hexec (format (insert_query_template u)
                       (<["table_name" := table]> (query_args u))) w1)
      as (rows2 & w2 & -> & Hw2).
    by rewrite IH, Hw2, Hw1.
Qed.

Lemma flush_batch_touches_named_projects_only_witness :
  fst (get_projects_query_flags 43200 [8] 5
         (redis (snd (flush_batch 43200 "sentry_local" example_format
                        example_execute_robust id
                        [example_deleted; example_merged] example_world))))
  = fst (get_projects_query_flags 43200 [8] 5 (redis example_world)).
Proof.
  apply (flush_batch_touches_named_projects_only 43200 "sentry_local"
           example_format example_execute_robust id [8]
           [example_deleted; example_merged] example_world 5).
  intros p ->%list_elem_of_singleton. cbn.
  rewrite !not_elem_of_cons. repeat split; [lia..|apply not_elem_of_nil].
Defined.

(** ** More on the sampling rate processor *)

(** X19: the sampling rate processor never changes the data source the
    query is bound to, and running it a second time with the same request
    settings changes nothing more. *)
Theorem process_query_is_idempotent
  {SamplingMode : Type} `{EqDecision SamplingMode}
  (AUTO_DEPRECATED : SamplingMode) (TURBO_SAMPLE_RATE : Q)
  (query : SamplingRateProcessor.Query)
  (request_settings : SamplingRateProcessor.RequestSettings) :
  let process :=
    SamplingRateProcessor.process_query AUTO_DEPRECATED TURBO_SAMPLE_RATE in
  SamplingRateProcessor.get_data_source (process query request_settings)
  = SamplingRateProcessor.get_data_source query
  /\ process (process query request_settings) request_settings
     = process query request_settings.
Proof.
  unfold SamplingRateProcessor.process_query.
  destruct query as [[supported] sample], request_settings as [mode turbo].
  cbn [SamplingRateProcessor.get_data_source SamplingRateProcessor.get_sample
         SamplingRateProcessor.supports_sample
         SamplingRateProcessor.get_sampling_config_mode
         SamplingRateProcessor.get_turbo].
  destruct (decide (mode = AUTO_DEPRECATED)) as [->|Hmode];
    destruct supported; cbn [negb SamplingRateProcessor.set_sample
                               SamplingRateProcessor.get_data_source
                               SamplingRateProcessor.get_sample
                               SamplingRateProcessor.supports_sample];
    try (by split).
  - destruct (SamplingRateProcessor.truthy sample) eqn:Hsample.
    + cbn [SamplingRateProcessor.get_data_source SamplingRateProcessor.get_sample
             SamplingRateProcessor.supports_sample negb].
      by rewrite Hsample.
    + destruct turbo.
      * cbn [SamplingRateProcessor.set_sample
               SamplingRateProcessor.get_data_source
               SamplingRateProcessor.get_sample
               SamplingRateProcessor.supports_sample negb].
        split; [done|].
        by destruct (SamplingRateProcessor.truthy (Some TURBO_SAMPLE_RATE)).
      * cbn [SamplingRateProcessor.get_data_source
               SamplingRateProcessor.get_sample
               SamplingRateProcessor.supports_sample negb].
        by rewrite Hsample.
  - cbn [SamplingRateProcessor.truthy]. destruct turbo.
    + cbn [SamplingRateProcessor.set_sample
             SamplingRateProcessor.get_data_source
             SamplingRateProcessor.get_sample
             SamplingRateProcessor.supports_sample negb].
      split; [done|].
      by destruct (SamplingRateProcessor.truthy (Some TURBO_SAMPLE_RATE)).
    + by split.
Qed.

(** X20: under the deprecated-auto mode with the turbo flag on, a sample
    rate of zero on a source that supports sampling counts as no sample: the
    processor replaces it with the turbo sample rate. *)
Theorem zero_sample_rate_is_replaced_by_turbo
  {SamplingMode : Type} `{EqDecision SamplingMode}
  (AUTO_DEPRECATED : SamplingMode) (TURBO_SAMPLE_RATE : Q)
  (query : SamplingRateProcessor.Query)
  (request_settings : SamplingRateProcessor.RequestSettings)
  (rate : Q)
  (Hsource : SamplingRateProcessor.supports_sample
               (SamplingRateProcessor.get_data_source query) = true)
  (Hsample : SamplingRateProcessor.get_sample query = Some rate)
  (Hzero : (rate == 0)%Q)
  (Hmode : SamplingRateProcessor.get_sampling_config_mode request_settings
           = AUTO_DEPRECATED)
  (Hturbo : SamplingRateProcessor.get_turbo request_settings = true) :
  SamplingRateProcessor.get_sample
    (SamplingRateProcessor.process_query AUTO_DEPRECATED TURBO_SAMPLE_RATE
       query request_settings)
  = Some TURBO_SAMPLE_RATE.
Proof.
  unfold SamplingRateProcessor.process_query.
  rewrite Hsource. cbn [negb]. rewrite decide_True by done.
  rewrite Hsample, Hturbo. cbn [SamplingRateProcessor.truthy].
  by rewrite (proj2 (Qeq_bool_iff rate 0) Hzero).
Qed.

Lemma zero_sample_rate_is_replaced_by_turbo_witness :
  SamplingRateProcessor.get_sample
    (SamplingRateProcessor.process_query true (1 # 10)
       {| SamplingRateProcessor.get_data_source :=
            {| SamplingRateProcessor.supports_sample := true |};
          SamplingRateProcessor.get_sample := Some (0 # 5) |}
       {| SamplingRateProcessor.get_sampling_config_mode := true;
          SamplingRateProcessor.get_turbo := true |})
  = Some (1 # 10).
Proof.
  by apply (zero_sample_rate_is_replaced_by_turbo true (1 # 10) _ _ (0 # 5)).
Defined.

(** ** The storage factory *)

(** X21: every writable storage is readable under the same key;
    [outcomes_hourly] is readable and not writable; and [get_storage] knows
    the seven storage keys and no other. *)
Theorem writable_storages_are_readable
  {Storage : Type}
  (errors_storage events_storage groupassignees_storage
     groupedmessages_storage transactions_storage outcomes_raw_storage
     outcomes_hourly_storage : Storage)
  (storage_key : string) :
  let readable :=
    get_storage errors_storage events_storage groupassignees_storage
      groupedmessages_storage transactions_storage outcomes_raw_storage
      outcomes_hourly_storage in
  let writable :=
    get_writable_storage errors_storage events_storage groupassignees_storage
      groupedmessages_storage transactions_storage outcomes_raw_storage in
  (forall storage : Storage,
      writable storage_key = Some storage -> readable storage_key = Some storage)
  /\ readable "outcomes_hourly" = Some outcomes_hourly_storage
  /\ writable "outcomes_hourly" = None
  /\ (readable storage_key = None <->
      ~ In storage_key
          [ "errors"; "events"; "groupedmessages"; "groupassignees";
            "outcomes_raw"; "transactions"; "outcomes_hourly" ]).
Proof.
  intros readable writable.
  unfold readable, writable, get_storage, get_writable_storage, STORAGES,
    WRITABLE_STORAGES, NON_WRITABLE_STORAGES.
  split; [|split; [done|split; [done|]]].
  - intros storage Hwritable. rewrite lookup_union.
    destruct (decide (storage_key = "outcomes_hourly")) as [->|Hne]; [done|].
    by rewrite lookup_insert_ne, lookup_empty, Hwritable.
  - rewrite lookup_union_None, !lookup_insert_None, !lookup_empty. cbn [In].
    intuition congruence.
Qed.

Lemma writable_storages_are_readable_witness :
  get_storage 1 2 3 4 5 6 7 "transactions" = Some 5.
Proof.
  by apply (proj1 (writable_storages_are_readable 1 2 3 4 5 6 7 "transactions")).
Defined.
